(** * paramiko.message: the SSH2 message codec

    A shallow embedding of [paramiko/message.py] (class [Message]) and the
    properties of its byte-level encode and decode operations.

    A [Message] owns one [io.BytesIO] object ([self.packet]).  Python objects
    are mutable and are passed by reference, so the embedding keeps a store
    of objects indexed by references; every method takes [self] as a
    reference, runs in a state-and-exception monad over the store, and
    returns what the Python method returns. *)

From Stdlib Require Import ZArith Lia ZifyBool List Bool.
From Stdlib Require Import Strings.Byte.
From stdpp Require Import base option list strings gmap.

Local Open Scope Z_scope.

(** ** Python values *)

(** [bytes] objects. *)
Abbreviation bytes := (list byte).

(** [str] objects: sequences of Unicode code points. *)
Abbreviation str := (list N).

(** The exceptions that the modelled code can raise.  [NoSuchObject] is the
    behaviour of the store at a reference that holds no object; no Python
    execution reaches it, since [self] always designates a live object. *)
Inductive exn : Type :=
| StructError
| ValueError
| TypeError
| UnicodeEncodeError
| UnicodeDecodeError
| OverflowError
| NoSuchObject.

Inductive result (A : Type) : Type :=
| Ok (a : A)
| Raise (e : exn).
Arguments Ok {A} a.
Arguments Raise {A} e.

(** The values that callers hand to the generic [add]: the closed universe of
    run-time kinds the dispatch distinguishes. *)
#[warnings="-register-all"]
Inductive value : Type :=
| VBool (b : bool)
| VInt (n : Z)
| VList (l : list value)
| VStr (s : str)
| VBytes (b : bytes)
| VNone.

Inductive pytype : Type := TBool | TInt | TList | TStr | TBytes | TNoneType.

Definition pytype_eqb (a b : pytype) : bool :=
  match a, b with
  | TBool, TBool | TInt, TInt | TList, TList
  | TStr, TStr | TBytes, TBytes | TNoneType, TNoneType => true
  | _, _ => false
  end.

(** [type(i)] *)
Definition type (i : value) : pytype :=
  match i with
  | VBool _ => TBool
  | VInt _ => TInt
  | VList _ => TList
  | VStr _ => TStr
  | VBytes _ => TBytes
  | VNone => TNoneType
  end.

(** [issubclass]: in Python [bool] is a subclass of [int]. *)
Definition issubclass (a b : pytype) : bool :=
  pytype_eqb a b || (pytype_eqb a TBool && pytype_eqb b TInt).

(** [isinstance(i, t)] *)
Definition isinstance (i : value) (t : pytype) : bool := issubclass (type i) t.

(** The truth value of an object, as [if b:] tests it. *)
Definition truth (i : value) : bool :=
  match i with
  | VBool b => b
  | VInt n => negb (n =? 0)
  | VList l => match l with [] => false | _ :: _ => true end
  | VStr s => match s with [] => false | _ :: _ => true end
  | VBytes b => match b with [] => false | _ :: _ => true end
  | VNone => false
  end.

(** The integer an instance of [int] stands for ([True] is 1, [False] 0). *)
Definition int_value (i : value) : Z :=
  match i with
  | VInt n => n
  | VBool b => if b then 1 else 0
  | _ => 0
  end.

(** The items of a [list] object. *)
Definition list_items (i : value) : list value :=
  match i with
  | VList l => l
  | _ => []
  end.

(** [len(b)] as a Python integer. *)
Definition len {A : Type} (l : list A) : Z := Z.of_nat (length l).

(** [a == b] on [bytes]. *)
Fixpoint bytes_eqb (a b : bytes) : bool :=
  match a, b with
  | [], [] => true
  | x :: a', y :: b' => Byte.eqb x y && bytes_eqb a' b'
  | _, _ => false
  end.

(** [b * k] on [bytes]: [k] copies of [b], none when [k <= 0]. *)
Definition bytes_mul (b : bytes) (k : Z) : bytes :=
  concat (replicate (Z.to_nat k) b).

(** ** [struct.pack] and [struct.unpack] for the formats [">I"] and [">Q"] *)

Definition byte_of_Z (z : Z) : byte :=
  match Byte.of_N (Z.to_N (z mod 256)) with
  | Some b => b
  | None => "000"%byte
  end.

Definition Z_of_byte (b : byte) : Z := Z.of_N (Byte.to_N b).

(** Big-endian, [width] bytes, most significant first. *)
Fixpoint be_encode (width : nat) (n : Z) : bytes :=
  match width with
  | O => []
  | S w => byte_of_Z (n / 256 ^ Z.of_nat w) :: be_encode w n
  end.

Definition be_decode (b : bytes) : Z :=
  fold_left (fun acc x => acc * 256 + Z_of_byte x) b 0.

(** [struct.pack(fmt, n)] for an unsigned big-endian field of [width] bytes:
    [struct.error] when [n] is outside [0 .. 256^width - 1]. *)
Definition struct_pack (width : nat) (n : Z) : result bytes :=
  if (0 <=? n) && (n <? 256 ^ Z.of_nat width)
  then Ok (be_encode width n)
  else Raise StructError.

(** [struct.unpack(fmt, b)[0]]: [struct.error] unless [b] has exactly
    [width] bytes. *)
Definition struct_unpack (width : nat) (b : bytes) : result Z :=
  if (length b =? width)%nat then Ok (be_decode b) else Raise StructError.

Definition struct_pack_I := struct_pack 4.
Definition struct_pack_Q := struct_pack 8.
Definition struct_unpack_I := struct_unpack 4.
Definition struct_unpack_Q := struct_unpack 8.

(** ** [io.BytesIO]

    An in-memory byte buffer with ONE stream position, shared by reads and
    writes: [read] returns bytes from the position on and advances it,
    [write] stores at the position (overwriting what is there, extending the
    buffer when it runs past the end) and advances it. *)

Record BytesIO : Type := mkBytesIO { buf : bytes; pos : nat }.

(** [BytesIO(initial)] and [BytesIO()]: the position starts at 0. *)
Definition BytesIO_new (initial : option bytes) : BytesIO :=
  {| buf := match initial with Some c => c | None => [] end; pos := 0 |}.

(** The bytes from the position to the end. *)
Definition unread (s : BytesIO) : bytes := drop (pos s) (buf s).

(** The read proper, on a size that has been accepted: [read()] is
    [size = None]; a negative size reads to the end as well. *)
Definition read_bytes (size : option Z) (s : BytesIO) : bytes * BytesIO :=
  let avail := unread s in
  let data :=
    match size with
    | None => avail
    | Some n =>
        if n <? 0 then avail
        else if len avail <=? n then avail
        else take (Z.to_nat n) avail
    end in
  (data, {| buf := buf s; pos := pos s + length data |}).

(** The size is converted to a [Py_ssize_t] first, a signed 64-bit
    integer: one that does not fit, below [-2^63] or from [2^63] on, is
    refused.  A [bytes] object holds fewer than [2^63] bytes, so a size
    from [2^63] on is always more than what is left to read; the lists of
    the model have no such bound, and the test says so in full (see
    [size_overflows_iff]). *)
Definition size_overflows (size : option Z) (s : BytesIO) : bool :=
  match size with
  | None => false
  | Some n => (n <? - 2 ^ 63) || ((2 ^ 63 <=? n) && (len (unread s) <? n))
  end.

(** [read(size)]: [OverflowError], with nothing read, when the size does
    not fit; else the read proper. *)
Definition io_read (size : option Z) (s : BytesIO) : result bytes * BytesIO :=
  if size_overflows size s then (Raise OverflowError, s)
  else let '(d, s') := read_bytes size s in (Ok d, s').

(** [write(b)]: returns the number of bytes written.  A position beyond the
    end is first filled with zero bytes; writing nothing changes nothing. *)
Definition io_write (b : bytes) (s : BytesIO) : Z * BytesIO :=
  match b with
  | [] => (0, s)
  | _ =>
      let padded := buf s ++ replicate (pos s - length (buf s)) "000"%byte in
      (len b,
       {| buf := take (pos s) padded ++ b ++ drop (pos s + length b) padded;
          pos := pos s + length b |})
  end.

(** [seek(p)]: [ValueError] on a negative position. *)
Definition io_seek (p : Z) (s : BytesIO) : result Z * BytesIO :=
  if p <? 0 then (Raise ValueError, s)
  else (Ok p, {| buf := buf s; pos := Z.to_nat p |}).

Definition io_tell (s : BytesIO) : Z := Z.of_nat (pos s).

Definition io_getvalue (s : BytesIO) : bytes := buf s.

(** ** The object store and the method monad *)

Abbreviation ref := positive.
Abbreviation heap := (gmap positive BytesIO).

Definition M (A : Type) : Type := heap -> result A * heap.

Definition ret {A : Type} (a : A) : M A := fun h => (Ok a, h).

Definition raise {A : Type} (e : exn) : M A := fun h => (Raise e, h).

Definition bind {A B : Type} (c : M A) (k : A -> M B) : M B :=
  fun h =>
    match c h with
    | (Ok a, h') => k a h'
    | (Raise e, h') => (Raise e, h')
    end.

Declare Scope py_scope.
Delimit Scope py_scope with py.
Notation "x <- c ;; k" := (bind c (fun x => k))
  (at level 100, c at next level, right associativity) : py_scope.
Notation "c ;;; k" := (bind c (fun _ => k))
  (at level 100, right associativity) : py_scope.
Local Open Scope py_scope.

(** A pure computation that may raise. *)
Definition lift {A : Type} (r : result A) : M A :=
  match r with Ok a => ret a | Raise e => raise e end.

(** A method call on [self.packet]. *)
Definition packet {A : Type} (self : ref)
    (f : BytesIO -> result A * BytesIO) : M A :=
  fun h =>
    match h !! self with
    | Some s => let '(r, s') := f s in (r, <[self := s']> h)
    | None => (Raise NoSuchObject, h)
    end.

Definition packet_read (self : ref) (size : option Z) : M bytes :=
  packet self (io_read size).
Definition packet_write (self : ref) (b : bytes) : M Z :=
  packet self (fun s => let '(n, s') := io_write b s in (Ok n, s')).
Definition packet_seek (self : ref) (p : Z) : M Z :=
  packet self (io_seek p).
Definition packet_tell (self : ref) : M Z :=
  packet self (fun s => (Ok (io_tell s), s)).
Definition packet_getvalue (self : ref) : M bytes :=
  packet self (fun s => (Ok (io_getvalue s), s)).

(** ** [str.join] and [str.split] *)

(** [sep.join(l)]: [TypeError] when an element of [l] is not a [str]. *)
Fixpoint str_join (sep : str) (l : list value) : result str :=
  match l with
  | [] => Ok []
  | VStr s :: rest =>
      match rest with
      | [] => Ok s
      | _ :: _ =>
          match str_join sep rest with
          | Ok r => Ok (s ++ sep ++ r)
          | Raise e => Raise e
          end
      end
  | _ :: _ => Raise TypeError
  end.

(** [s.split(sep)] for a separator of one code point (the only call passes
    [","]): the pieces between the occurrences of [sep]; there is always at
    least one piece. *)
Fixpoint str_split (sep : N) (s : str) : list str :=
  match s with
  | [] => [[]]
  | c :: s' =>
      if (c =? sep)%N then [] :: str_split sep s'
      else match str_split sep s' with
           | w :: ws => (c :: w) :: ws
           | [] => [[c]]
           end
  end.

Definition comma : N := 44%N.

(** ** [paramiko.common] *)

(** Modelled from the spec: the byte constants [zero_byte], [one_byte] and
    [max_byte] of [paramiko.common], which is not among the sources.  The
    spec gives them as the one-byte sequences [0x00], [0x01] and [0xff]
    (the boolean encodings and the adaptive-int marker byte). *)
Definition zero_byte : bytes := [x00].
Definition one_byte : bytes := [x01].
Definition max_byte : bytes := [xff].

(** ** class [Message] *)

(** The nine [add_*] methods as one family of calls. *)
Inductive add_call : Type :=
| AddBytes (b : bytes)
| AddByte (b : bytes)
| AddBoolean (b : bool)
| AddInt (n : Z)
| AddAdaptiveInt (n : Z)
| AddInt64 (n : Z)
| AddMpint (z : Z)
| AddString (s : value)
| AddList (l : list value).

Section Message.

(** The helpers of [paramiko.util], which is not among the sources:
    [util.deflate_long], [util.inflate_long], [util.asbytes] and [u].
    ([util_asbytes] keeps the module prefix: the class has a method
    [asbytes] of its own.) *)
Variable deflate_long : Z -> bytes.
Variable inflate_long : bytes -> Z.
Variable util_asbytes : value -> result bytes.
Variable u : bytes -> result str.

Definition big_int : Z := 0xff000000.

(** [__init__]: [self.packet = BytesIO(content)] or [BytesIO()]. *)
Definition __init__ (self : ref) (content : option bytes) : M unit :=
  fun h => (Ok tt, <[self := BytesIO_new content]> h).

Definition asbytes (self : ref) : M bytes := packet_getvalue self.

Definition rewind (self : ref) : M unit :=
  packet_seek self 0 ;;; ret tt.

Definition get_remainder (self : ref) : M bytes :=
  position <- packet_tell self ;;
  remainder <- packet_read self None ;;
  packet_seek self position ;;;
  ret remainder.

Definition get_so_far (self : ref) : M bytes :=
  position <- packet_tell self ;;
  rewind self ;;;
  packet_read self (Some position).

Definition max_pad_size : Z := Z.shiftl 1 20.

Definition get_bytes (self : ref) (n : Z) : M bytes :=
  b <- packet_read self (Some n) ;;
  if (len b <? n) && (n <? max_pad_size)
  then ret (b ++ bytes_mul zero_byte (n - len b))
  else ret b.

Definition get_byte (self : ref) : M bytes := get_bytes self 1.

Definition get_boolean (self : ref) : M bool :=
  b <- get_bytes self 1 ;;
  ret (negb (bytes_eqb b zero_byte)).

Definition get_int (self : ref) : M Z :=
  b <- get_bytes self 4 ;;
  lift (struct_unpack_I b).

Definition get_int64 (self : ref) : M Z :=
  b <- get_bytes self 8 ;;
  lift (struct_unpack_Q b).

Definition get_string (self : ref) : M bytes :=
  n <- get_int self ;;
  get_bytes self n.

Definition get_binary (self : ref) : M bytes :=
  n <- get_int self ;;
  get_bytes self n.

Definition get_adaptive_int (self : ref) : M Z :=
  byte <- get_bytes self 1 ;;
  if bytes_eqb byte max_byte
  then (s <- get_binary self ;; ret (inflate_long s))
  else (rest <- get_bytes self 3 ;;
        lift (struct_unpack_I (byte ++ rest))).

Definition get_mpint (self : ref) : M Z :=
  s <- get_binary self ;;
  ret (inflate_long s).

Definition get_text (self : ref) : M str :=
  s <- get_string self ;;
  lift (u s).

Definition get_list (self : ref) : M (list str) :=
  t <- get_text self ;;
  ret (str_split comma t).

Definition add_bytes (self : ref) (b : bytes) : M ref :=
  packet_write self b ;;;
  ret self.

Definition add_byte (self : ref) (b : bytes) : M ref :=
  packet_write self b ;;;
  ret self.

Definition add_boolean (self : ref) (b : bool) : M ref :=
  (if b then packet_write self one_byte
   else packet_write self zero_byte) ;;;
  ret self.

Definition add_int (self : ref) (n : Z) : M ref :=
  p <- lift (struct_pack_I n) ;;
  packet_write self p ;;;
  ret self.

Definition add_int64 (self : ref) (n : Z) : M ref :=
  p <- lift (struct_pack_Q n) ;;
  packet_write self p ;;;
  ret self.

Definition add_string (self : ref) (s : value) : M ref :=
  s <- lift (util_asbytes s) ;;
  add_int self (len s) ;;;
  packet_write self s ;;;
  ret self.

Definition add_adaptive_int (self : ref) (n : Z) : M ref :=
  (if n >=? big_int
   then (packet_write self max_byte ;;;
         add_string self (VBytes (deflate_long n)))
   else (p <- lift (struct_pack_I n) ;;
         packet_write self p ;;;
         ret self)) ;;;
  ret self.

Definition add_mpint (self : ref) (z : Z) : M ref :=
  add_string self (VBytes (deflate_long z)) ;;;
  ret self.

Definition add_list (self : ref) (l : list value) : M ref :=
  j <- lift (str_join [comma] l) ;;
  add_string self (VStr j) ;;;
  ret self.

(** The tests are made in the order of the source; [bool] is tested
    before [int] because every [bool] is an instance of [int]. *)
Definition _add (self : ref) (i : value) : M ref :=
  if pytype_eqb (type i) TBool then add_boolean self (truth i)
  else if isinstance i TInt then add_adaptive_int self (int_value i)
  else if pytype_eqb (type i) TList then add_list self (list_items i)
  else add_string self i.

Fixpoint add (self : ref) (seq : list value) : M unit :=
  match seq with
  | [] => ret tt
  | item :: seq' => _add self item ;;; add self seq'
  end.

(** *** Calls and scenarios *)

(** One of the nine [add_*] methods, called on [self]. *)
Definition call (self : ref) (c : add_call) : M ref :=
  match c with
  | AddBytes b => add_bytes self b
  | AddByte b => add_byte self b
  | AddBoolean b => add_boolean self b
  | AddInt n => add_int self n
  | AddAdaptiveInt n => add_adaptive_int self n
  | AddInt64 n => add_int64 self n
  | AddMpint z => add_mpint self z
  | AddString s => add_string self s
  | AddList l => add_list self l
  end.

(** The wire form of a string: the 4-byte length, then the payload. *)
Definition wire_string (s : value) : result bytes :=
  match util_asbytes s with
  | Ok b =>
      match struct_pack_I (len b) with
      | Ok p => Ok (p ++ b)
      | Raise e => Raise e
      end
  | Raise e => Raise e
  end.

(** The bytes that a call puts on the wire when it completes, following
    the table of wire encodings. *)
Definition wire (c : add_call) : result bytes :=
  match c with
  | AddBytes b | AddByte b => Ok b
  | AddBoolean b => Ok (if b then one_byte else zero_byte)
  | AddInt n => struct_pack_I n
  | AddInt64 n => struct_pack_Q n
  | AddAdaptiveInt n =>
      if n >=? big_int then
        match wire_string (VBytes (deflate_long n)) with
        | Ok w => Ok (max_byte ++ w)
        | Raise e => Raise e
        end
      else struct_pack_I n
  | AddMpint z => wire_string (VBytes (deflate_long z))
  | AddString s => wire_string s
  | AddList l =>
      match str_join [comma] l with
      | Ok j => wire_string (VStr j)
      | Raise e => Raise e
      end
  end.

(** Encode into a fresh message, take its bytes, and decode them from the
    start in a message constructed from those bytes:
    [m = Message(); enc(m); w = m.asbytes(); v = dec(Message(w))]. *)
Definition round_trip {A : Type} (self peer : ref)
    (enc : ref -> M ref) (dec : ref -> M A) : M (bytes * A) :=
  __init__ self None ;;;
  enc self ;;;
  w <- asbytes self ;;
  __init__ peer (Some w) ;;;
  v <- dec peer ;;
  ret (w, v).

End Message.

(** ** Notions used in the statements *)

(** The cursor lies within the content: [0 <= position <= len(content)]. *)
Definition cursor_in_range (s : BytesIO) : Prop :=
  (pos s <= length (buf s))%nat.

(** [w] stored over the content at the cursor, the cursor moved past it. *)
Definition overwrite (w : bytes) (s : BytesIO) : BytesIO :=
  {| buf := take (pos s) (buf s) ++ w ++ drop (pos s + length w) (buf s);
     pos := pos s + length w |}.

(** The cursor moved forward by [k]. *)
Definition advance (k : nat) (s : BytesIO) : BytesIO :=
  {| buf := buf s; pos := pos s + k |}.

(** Every buffer of the store has its cursor within its content. *)
Definition store_ok (h : heap) : Prop :=
  forall (r : ref) (s : BytesIO), h !! r = Some s -> cursor_in_range s.

(** A computation that keeps every cursor within its content, whether it
    returns or raises. *)
Definition preserves {A : Type} (c : M A) : Prop :=
  forall h : heap, store_ok h -> store_ok (snd (c h)).

(** Text literals: the code points of an ASCII string. *)
Definition text (s : string) : str :=
  map Ascii.N_of_ascii (String.list_ascii_of_string s).

(** An integer whose shortest big-endian form has more than [2^32] bytes. *)
Definition huge : Z := 2 ^ 34359738368.

(** ** [paramiko.util] *)

Module Util.

(** The number of bytes of the shortest big-endian form of [n > 0]. *)
Definition byte_length (n : Z) : Z := Z.log2 n / 8 + 1.

(** Modelled from the spec: [util.deflate_long], which is not among the
    sources.  It "encodes a non-negative integer as the minimal big-endian
    two's-complement byte sequence, prepending a zero byte when the natural
    encoding's most significant bit is set", and "encodes 0 as an empty
    byte sequence".  The contract speaks of non-negative integers only;
    the model gives the empty sequence at a negative integer, and nothing
    below depends on that. *)
Definition deflate_long (n : Z) : bytes :=
  if n <=? 0 then []
  else
    let natural := be_encode (Z.to_nat (byte_length n)) n in
    match natural with
    | top :: _ => if 128 <=? Z_of_byte top then x00 :: natural else natural
    | [] => []
    end.

(** Modelled from the spec: [util.inflate_long], which is not among the
    sources: the "inverse of the above; empty input decodes to 0".  The
    bytes are read as a big-endian two's-complement integer. *)
Definition inflate_long (s : bytes) : Z :=
  match s with
  | [] => 0
  | top :: _ =>
      if 128 <=? Z_of_byte top then be_decode s - 256 ^ len s
      else be_decode s
  end.

(** UTF-8 *)

Definition utf8_encode_char (c : Z) : result bytes :=
  if c <? 0 then Raise UnicodeEncodeError
  else if c <? 0x80 then Ok [byte_of_Z c]
  else if c <? 0x800 then
    Ok [byte_of_Z (0xC0 + c / 64); byte_of_Z (0x80 + c mod 64)]
  else if c <? 0x10000 then
    if (0xD800 <=? c) && (c <=? 0xDFFF) then Raise UnicodeEncodeError
    else Ok [byte_of_Z (0xE0 + c / 4096);
             byte_of_Z (0x80 + c / 64 mod 64);
             byte_of_Z (0x80 + c mod 64)]
  else if c <? 0x110000 then
    Ok [byte_of_Z (0xF0 + c / 262144);
        byte_of_Z (0x80 + c / 4096 mod 64);
        byte_of_Z (0x80 + c / 64 mod 64);
        byte_of_Z (0x80 + c mod 64)]
  else Raise UnicodeEncodeError.

Fixpoint utf8_encode (s : str) : result bytes :=
  match s with
  | [] => Ok []
  | c :: s' =>
      match utf8_encode_char (Z.of_N c), utf8_encode s' with
      | Ok b, Ok r => Ok (b ++ r)
      | Raise e, _ => Raise e
      | _, Raise e => Raise e
      end
  end.

(** A continuation byte [10xxxxxx]. *)
Definition continuation (b : byte) : option Z :=
  let z := Z_of_byte b in
  if (0x80 <=? z) && (z <? 0xC0) then Some (z - 0x80) else None.

(** Strict decoding: no overlong forms, no surrogates, nothing above
    U+10FFFF, no truncated sequence. *)
Fixpoint utf8_decode (b : bytes) : result str :=
  let emit (c : Z) (r : result str) : result str :=
    match r with Ok s => Ok (Z.to_N c :: s) | Raise e => Raise e end in
  match b with
  | [] => Ok []
  | b0 :: r0 =>
      let z := Z_of_byte b0 in
      if z <? 0x80 then emit z (utf8_decode r0)
      else if z <? 0xC2 then Raise UnicodeDecodeError
      else if z <? 0xE0 then
        match r0 with
        | b1 :: r1 =>
            match continuation b1 with
            | Some c1 => emit ((z - 0xC0) * 64 + c1) (utf8_decode r1)
            | None => Raise UnicodeDecodeError
            end
        | _ => Raise UnicodeDecodeError
        end
      else if z <? 0xF0 then
        match r0 with
        | b1 :: b2 :: r2 =>
            match continuation b1, continuation b2 with
            | Some c1, Some c2 =>
                let c := (z - 0xE0) * 4096 + c1 * 64 + c2 in
                if (c <? 0x800) || ((0xD800 <=? c) && (c <=? 0xDFFF))
                then Raise UnicodeDecodeError
                else emit c (utf8_decode r2)
            | _, _ => Raise UnicodeDecodeError
            end
        | _ => Raise UnicodeDecodeError
        end
      else if z <? 0xF5 then
        match r0 with
        | b1 :: b2 :: b3 :: r3 =>
            match continuation b1, continuation b2, continuation b3 with
            | Some c1, Some c2, Some c3 =>
                let c := (z - 0xF0) * 262144 + c1 * 4096 + c2 * 64 + c3 in
                if (c <? 0x10000) || (0x10FFFF <? c)
                then Raise UnicodeDecodeError
                else emit c (utf8_decode r3)
            | _, _, _ => Raise UnicodeDecodeError
            end
        | _ => Raise UnicodeDecodeError
        end
      else Raise UnicodeDecodeError
  end.

(** Modelled from the spec: [util.asbytes], which is not among the
    sources: the "helper that normalizes text-like inputs to raw bytes
    before [add_string] writes them"; [bytes] pass unchanged, text is
    encoded as UTF-8, and a value of another kind "fails with a
    type/encoding error at the collaborator boundary". *)
Definition asbytes (s : value) : result bytes :=
  match s with
  | VBytes b => Ok b
  | VStr t => utf8_encode t
  | _ => Raise TypeError
  end.

(** Modelled from the spec: [util.u], which is not among the sources: the
    "helper that decodes raw bytes to text for [get_text], failing with a
    DecodeError on invalid UTF-8". *)
Definition u (s : bytes) : result str := utf8_decode s.

End Util.

(** ** Messages as sequences of fields *)

(** The stream from the cursor on, continued by zero bytes without end:
    its first [n] bytes. *)
Definition zero_extended (n : nat) (U : bytes) : bytes :=
  take n (U ++ replicate n x00).

(** A computation that, run on the message [self], moves at most the
    cursor of [self]: the content and every other object are kept, and
    the result and the new cursor depend on the state of [self] alone. *)
Definition reader {A : Type} (c : M A) (self : ref) : Prop :=
  forall s : BytesIO, exists (r : result A) (k : nat),
    forall h : heap, h !! self = Some s ->
      c h = (r, <[self := {| buf := buf s; pos := k |}]> h).

(** The typed fields a message is made of, and their kinds. *)
Inductive field : Type :=
| FBoolean (b : bool)
| FInt (n : Z)
| FInt64 (n : Z)
| FAdaptiveInt (n : Z)
| FMpint (z : Z)
| FString (b : bytes).

Inductive kind : Type :=
| KBoolean | KInt | KInt64 | KAdaptiveInt | KMpint | KString.

Definition kind_of (f : field) : kind :=
  match f with
  | FBoolean _ => KBoolean
  | FInt _ => KInt
  | FInt64 _ => KInt64
  | FAdaptiveInt _ => KAdaptiveInt
  | FMpint _ => KMpint
  | FString _ => KString
  end.

(** The call that the generic [_add] makes for an item. *)
Definition value_call (i : value) : add_call :=
  if pytype_eqb (type i) TBool then AddBoolean (truth i)
  else if isinstance i TInt then AddAdaptiveInt (int_value i)
  else if pytype_eqb (type i) TList then AddList (list_items i)
  else AddString i.

Section Fields.

Variable deflate_long : Z -> bytes.
Variable inflate_long : bytes -> Z.
Variable util_asbytes : value -> result bytes.

(** [m.add_<kind>(value)] *)
Definition add_field (self : ref) (f : field) : M ref :=
  match f with
  | FBoolean b => add_boolean self b
  | FInt n => add_int self n
  | FInt64 n => add_int64 self n
  | FAdaptiveInt n => add_adaptive_int deflate_long util_asbytes self n
  | FMpint z => add_mpint deflate_long util_asbytes self z
  | FString b => add_string util_asbytes self (VBytes b)
  end.

(** [m.get_<kind>()] *)
Definition get_field (self : ref) (k : kind) : M field :=
  match k with
  | KBoolean => b <- get_boolean self ;; ret (FBoolean b)
  | KInt => n <- get_int self ;; ret (FInt n)
  | KInt64 => n <- get_int64 self ;; ret (FInt64 n)
  | KAdaptiveInt => n <- get_adaptive_int inflate_long self ;; ret (FAdaptiveInt n)
  | KMpint => z <- get_mpint inflate_long self ;; ret (FMpint z)
  | KString => b <- get_string self ;; ret (FString b)
  end.

(** The fields added one after the other. *)
Fixpoint add_fields (self : ref) (fs : list field) : M unit :=
  match fs with
  | [] => ret tt
  | f :: fs' => add_field self f ;;; add_fields self fs'
  end.

(** The fields of the given kinds fetched one after the other. *)
Fixpoint get_fields (self : ref) (ks : list kind) : M (list field) :=
  match ks with
  | [] => ret []
  | k :: ks' =>
      f <- get_field self k ;;
      fs <- get_fields self ks' ;;
      ret (f :: fs)
  end.

(** The helpers' contract at an integer: [asbytes] leaves its
    [deflate_long] form unchanged, the form fits the 4-byte length field,
    and [inflate_long] gives the integer back. *)
Definition long_contract (z : Z) : Prop :=
  util_asbytes (VBytes (deflate_long z)) = Ok (deflate_long z)
  /\ inflate_long (deflate_long z) = z
  /\ len (deflate_long z) < 2 ^ 32.

(** The fields that have a wire form. *)
Definition encodable (f : field) : Prop :=
  match f with
  | FBoolean _ => True
  | FInt n => 0 <= n < 2 ^ 32
  | FInt64 n => 0 <= n < 2 ^ 64
  | FAdaptiveInt n => 0 <= n /\ (big_int <= n -> long_contract n)
  | FMpint z => long_contract z
  | FString b => util_asbytes (VBytes b) = Ok b /\ len b < 2 ^ 32
  end.

(** The wire form of an encodable field. *)
Definition field_wire (f : field) : bytes :=
  match f with
  | FBoolean b => if b then one_byte else zero_byte
  | FInt n => be_encode 4 n
  | FInt64 n => be_encode 8 n
  | FAdaptiveInt n =>
      if n <? big_int then be_encode 4 n
      else max_byte ++ be_encode 4 (len (deflate_long n)) ++ deflate_long n
  | FMpint z => be_encode 4 (len (deflate_long z)) ++ deflate_long z
  | FString b => be_encode 4 (len b) ++ b
  end.

(** Build a message from fields, take its bytes, and fetch fields of the
    same kinds from a message constructed from those bytes. *)
Definition message_round_trip_of (self peer : ref) (fs : list field)
    : M (list field) :=
  __init__ self None ;;;
  add_fields self fs ;;;
  w <- asbytes self ;;
  __init__ peer (Some w) ;;;
  get_fields peer (map kind_of fs).

End Fields.

(** * Properties *)

(** ** Bytes and the big-endian codec *)

Lemma bytes_eqb_eq (a b : bytes) : bytes_eqb a b = true <-> a = b.
Proof.
  revert b; induction a as [|x a IH]; intros [|y b]; simpl; try easy.
  rewrite andb_true_iff, IH. split.
  - intros [Hxy ->]. apply Byte.byte_dec_bl in Hxy. by subst.
  - intros [= -> ->]. split; [by apply Byte.byte_dec_lb | done].
Qed.

Lemma bytes_eqb_refl (a : bytes) : bytes_eqb a a = true.
Proof. by apply bytes_eqb_eq. Qed.

Lemma bytes_eqb_neq (a b : bytes) : a <> b -> bytes_eqb a b = false.
Proof.
  intros Hne. destruct (bytes_eqb a b) eqn:E; [|done].
  by apply bytes_eqb_eq in E.
Qed.

Lemma Z_of_byte_range (b : byte) : 0 <= Z_of_byte b < 256.
Proof.
  unfold Z_of_byte. pose proof (Byte.to_N_bounded b). lia.
Qed.

Lemma Z_of_byte_of_Z (z : Z) : Z_of_byte (byte_of_Z z) = z mod 256.
Proof.
  unfold Z_of_byte, byte_of_Z.
  pose proof (Z.mod_pos_bound z 256 eq_refl) as Hr.
  destruct (Byte.of_N (Z.to_N (z mod 256))) as [b|] eqn:E.
  - apply Byte.to_of_N in E. rewrite E. lia.
  - apply Byte.of_N_None_iff in E. lia.
Qed.

Lemma byte_of_Z_of_byte (b : byte) : byte_of_Z (Z_of_byte b) = b.
Proof.
  unfold byte_of_Z. pose proof (Z_of_byte_range b) as Hr.
  rewrite Z.mod_small by done. unfold Z_of_byte.
  by rewrite N2Z.id, Byte.of_to_N.
Qed.

Lemma length_be_encode (w : nat) (n : Z) : length (be_encode w n) = w.
Proof. induction w as [|w IH]; simpl; [done | by rewrite IH]. Qed.

Lemma len_be_encode (w : nat) (n : Z) : len (be_encode w n) = Z.of_nat w.
Proof. unfold len. by rewrite length_be_encode. Qed.

Lemma be_decode_acc (b : bytes) (acc : Z) :
  fold_left (fun a x => a * 256 + Z_of_byte x) b acc
  = acc * 256 ^ len b + be_decode b.
Proof.
  unfold be_decode, len. revert acc.
  induction b as [|x b IH]; intros acc; simpl fold_left.
  - simpl. lia.
  - rewrite IH, (IH (0 * 256 + Z_of_byte x)).
    rewrite length_cons, Nat2Z.inj_succ, Z.pow_succ_r by lia. ring.
Qed.

Lemma be_decode_cons (x : byte) (b : bytes) :
  be_decode (x :: b) = Z_of_byte x * 256 ^ len b + be_decode b.
Proof.
  unfold be_decode at 1. simpl fold_left. by rewrite be_decode_acc.
Qed.

Lemma be_decode_range (b : bytes) : 0 <= be_decode b < 256 ^ len b.
Proof.
  induction b as [|x b IH].
  - by vm_compute.
  - rewrite be_decode_cons. pose proof (Z_of_byte_range x).
    replace (len (x :: b)) with (Z.succ (len b))
      by (unfold len; rewrite length_cons; lia).
    rewrite Z.pow_succ_r by (unfold len; lia). nia.
Qed.

Lemma be_decode_encode (w : nat) (n : Z) :
  be_decode (be_encode w n) = n mod 256 ^ Z.of_nat w.
Proof.
  induction w as [|w IH].
  - simpl. by rewrite Z.mod_1_r.
  - simpl be_encode. rewrite be_decode_cons, len_be_encode, IH, Z_of_byte_of_Z.
    rewrite Nat2Z.inj_succ, Z.pow_succ_r by lia.
    rewrite (Z.mul_comm 256), Z.rem_mul_r by lia. lia.
Qed.

Lemma struct_pack_unpack (w : nat) (n : Z) (p : bytes) :
  struct_pack w n = Ok p -> length p = w /\ struct_unpack w p = Ok n.
Proof.
  unfold struct_pack, struct_unpack.
  destruct (_ && _) eqn:E; [|done]. intros [= <-].
  rewrite length_be_encode, Nat.eqb_refl, be_decode_encode.
  split; [done|]. f_equal. apply Z.mod_small. lia.
Qed.

Lemma struct_pack_range (w : nat) (n : Z) :
  0 <= n < 256 ^ Z.of_nat w -> struct_pack w n = Ok (be_encode w n).
Proof.
  intros Hn. unfold struct_pack.
  destruct (_ && _) eqn:E; [done | lia].
Qed.

Lemma struct_pack_error (w : nat) (n : Z) :
  256 ^ Z.of_nat w <= n -> struct_pack w n = Raise StructError.
Proof.
  intros Hn. unfold struct_pack.
  destruct (_ && _) eqn:E; [lia | done].
Qed.

Lemma bytes_mul_zero_byte (k : Z) :
  bytes_mul zero_byte k = replicate (Z.to_nat k) x00.
Proof.
  unfold bytes_mul, zero_byte.
  induction (Z.to_nat k) as [|m IH]; simpl; [done | by rewrite IH].
Qed.

(** ** [io.BytesIO] *)

Lemma io_write_count (w : bytes) (s : BytesIO) : fst (io_write w s) = len w.
Proof. by destruct w. Qed.

Lemma io_write_in_range (w : bytes) (s : BytesIO) :
  cursor_in_range s -> snd (io_write w s) = overwrite w s.
Proof.
  unfold cursor_in_range, overwrite. destruct s as [B p]; simpl. intros Hp.
  destruct w as [|x w]; simpl snd.
  - simpl. rewrite Nat.add_0_r, take_drop. done.
  - replace (p - length B)%nat with 0%nat by lia.
    simpl replicate. by rewrite app_nil_r.
Qed.

Lemma overwrite_in_range (w : bytes) (s : BytesIO) :
  cursor_in_range s -> cursor_in_range (overwrite w s).
Proof.
  unfold cursor_in_range, overwrite. destruct s as [B p]; simpl. intros Hp.
  rewrite !length_app, length_take, length_drop. lia.
Qed.

Lemma overwrite_app (a b : bytes) (s : BytesIO) :
  cursor_in_range s -> overwrite b (overwrite a s) = overwrite (a ++ b) s.
Proof.
  unfold cursor_in_range, overwrite. destruct s as [B p]; simpl. intros Hp.
  assert (HX : length (take p B) = p) by (rewrite length_take; lia).
  f_equal.
  - rewrite (app_assoc (take p B) a).
    rewrite take_app_length' by (rewrite length_app; lia).
    rewrite drop_app_ge by (rewrite length_app; lia).
    rewrite drop_drop, length_app, HX.
    rewrite <- !app_assoc. do 3 f_equal. f_equal. rewrite length_app. lia.
  - rewrite length_app. lia.
Qed.

Lemma overwrite_at_end (w : bytes) (s : BytesIO) :
  pos s = length (buf s) ->
  overwrite w s = {| buf := buf s ++ w; pos := length (buf s ++ w) |}.
Proof.
  unfold overwrite. destruct s as [B p]; simpl. intros ->.
  rewrite take_ge, drop_ge, app_nil_r, length_app by lia. done.
Qed.

Lemma overwrite_length (w : bytes) (s : BytesIO) :
  cursor_in_range s ->
  length (buf (overwrite w s))
  = Nat.max (length (buf s)) (pos s + length w).
Proof.
  unfold cursor_in_range, overwrite. destruct s as [B p]; simpl. intros Hp.
  rewrite !length_app, length_take, length_drop. lia.
Qed.

(** Reading exactly the bytes [a] that sit at the cursor. *)
Lemma read_bytes_exact (pre a rest : bytes) (s : BytesIO) :
  buf s = pre ++ a ++ rest -> pos s = length pre ->
  read_bytes (Some (len a)) s = (a, advance (length a) s).
Proof.
  destruct s as [B p]; simpl. intros -> ->.
  unfold read_bytes, unread, advance; simpl.
  rewrite drop_app_length.
  assert (Hlt : (len a <? 0) = false) by (unfold len; lia).
  rewrite Hlt.
  destruct (len (a ++ rest) <=? len a) eqn:E.
  - assert (rest = []) as ->.
    { unfold len in E. rewrite length_app in E.
      destruct rest; [done | simpl in E; lia]. }
    by rewrite app_nil_r.
  - unfold len. rewrite Nat2Z.id, take_app_length. done.
Qed.

Lemma read_bytes_all (s : BytesIO) :
  read_bytes None s = (unread s, advance (length (unread s)) s).
Proof. done. Qed.

(** ** The method monad *)

Lemma packet_run {A : Type} (f : BytesIO -> result A * BytesIO)
    (h : heap) (self : ref) (s : BytesIO) :
  h !! self = Some s ->
  packet self f h = (fst (f s), <[self := snd (f s)]> h).
Proof. unfold packet. intros ->. by destruct (f s). Qed.

Lemma packet_read_run (h : heap) (self : ref) (s : BytesIO) (size : option Z) :
  h !! self = Some s -> size_overflows size s = false ->
  packet_read self size h
  = (Ok (fst (read_bytes size s)), <[self := snd (read_bytes size s)]> h).
Proof.
  intros Hs Hf. unfold packet_read. rewrite (packet_run _ _ _ _ Hs).
  unfold io_read. rewrite Hf. by destruct (read_bytes size s).
Qed.

(** A size that is refused: nothing is read. *)
Lemma packet_read_overflow (h : heap) (self : ref) (s : BytesIO)
    (size : option Z) :
  h !! self = Some s -> size_overflows size s = true ->
  packet_read self size h = (Raise OverflowError, h).
Proof.
  intros Hs Hf. unfold packet_read. rewrite (packet_run _ _ _ _ Hs).
  unfold io_read. rewrite Hf. simpl. by rewrite insert_id.
Qed.

(** On a content that a [bytes] object can hold, the sizes refused are
    those outside the signed 64-bit range. *)
Lemma size_overflows_iff (s : BytesIO) (n : Z) :
  len (buf s) < 2 ^ 63 ->
  size_overflows (Some n) s = true <-> n < - 2 ^ 63 \/ 2 ^ 63 <= n.
Proof.
  intros Hl. unfold size_overflows.
  assert (len (unread s) <= len (buf s))
    by (unfold unread, len; rewrite length_drop; lia).
  lia.
Qed.

Lemma size_fits (s : BytesIO) (n : Z) :
  - 2 ^ 63 <= n < 2 ^ 63 -> size_overflows (Some n) s = false.
Proof. intros Hn. unfold size_overflows. lia. Qed.

Lemma packet_write_run (h : heap) (self : ref) (s : BytesIO) (w : bytes) :
  h !! self = Some s -> cursor_in_range s ->
  packet_write self w h = (Ok (len w), <[self := overwrite w s]> h).
Proof.
  intros Hs Hr. unfold packet_write. rewrite (packet_run _ _ _ _ Hs).
  pose proof (io_write_count w s). pose proof (io_write_in_range w s Hr).
  destruct (io_write w s); simpl in *. by subst.
Qed.

Lemma packet_seek_run (h : heap) (self : ref) (s : BytesIO) (p : nat) :
  h !! self = Some s ->
  packet_seek self (Z.of_nat p) h
  = (Ok (Z.of_nat p), <[self := {| buf := buf s; pos := p |}]> h).
Proof.
  intros Hs. unfold packet_seek. rewrite (packet_run _ _ _ _ Hs).
  unfold io_seek. assert ((Z.of_nat p <? 0) = false) as -> by lia.
  simpl. by rewrite Nat2Z.id.
Qed.

Lemma packet_tell_run (h : heap) (self : ref) (s : BytesIO) :
  h !! self = Some s -> packet_tell self h = (Ok (Z.of_nat (pos s)), h).
Proof.
  intros Hs. unfold packet_tell. rewrite (packet_run _ _ _ _ Hs). simpl.
  by rewrite insert_id.
Qed.

Lemma packet_getvalue_run (h : heap) (self : ref) (s : BytesIO) :
  h !! self = Some s -> packet_getvalue self h = (Ok (buf s), h).
Proof.
  intros Hs. unfold packet_getvalue. rewrite (packet_run _ _ _ _ Hs). simpl.
  by rewrite insert_id.
Qed.

(** Running a bind whose first computation is known. *)
Lemma bind_run {A B : Type} (c : M A) (k : A -> M B) (h h' : heap) (a : A) :
  c h = (Ok a, h') -> bind c k h = k a h'.
Proof. unfold bind. by intros ->. Qed.

Lemma bind_raise {A B : Type} (c : M A) (k : A -> M B) (h h' : heap) (e : exn) :
  c h = (Raise e, h') -> bind c k h = (Raise e, h').
Proof. unfold bind. by intros ->. Qed.

(** ** Reading *)

Lemma advance_advance (j k : nat) (s : BytesIO) :
  advance k (advance j s) = advance (j + k) s.
Proof. unfold advance; simpl. f_equal. lia. Qed.

Lemma rewind_run (h : heap) (self : ref) (s : BytesIO) :
  h !! self = Some s ->
  rewind self h = (Ok tt, <[self := {| buf := buf s; pos := 0 |}]> h).
Proof.
  intros Hs. unfold rewind.
  by rewrite (bind_run _ _ _ _ _ (packet_seek_run h self s 0 Hs)).
Qed.

Lemma get_remainder_run (h : heap) (self : ref) (s : BytesIO) :
  h !! self = Some s -> get_remainder self h = (Ok (unread s), h).
Proof.
  intros Hs. unfold get_remainder.
  rewrite (bind_run _ _ _ _ _ (packet_tell_run h self s Hs)).
  rewrite (bind_run _ _ _ _ _ (packet_read_run h self s None Hs eq_refl)).
  rewrite read_bytes_all; simpl fst; simpl snd.
  erewrite bind_run by (apply packet_seek_run, lookup_insert_eq).
  unfold ret. f_equal. rewrite insert_insert_eq. apply insert_id.
  rewrite Hs. by destruct s.
Qed.

Lemma get_so_far_run (h : heap) (self : ref) (s : BytesIO) :
  h !! self = Some s -> cursor_in_range s ->
  get_so_far self h = (Ok (take (pos s) (buf s)), h).
Proof.
  intros Hs Hr. unfold get_so_far.
  rewrite (bind_run _ _ _ _ _ (packet_tell_run h self s Hs)).
  rewrite (bind_run _ _ _ _ _ (rewind_run h self s Hs)).
  unfold cursor_in_range in Hr.
  erewrite packet_read_run;
    [|apply lookup_insert_eq
     |unfold size_overflows, unread, len; simpl; rewrite drop_0; lia].
  rewrite insert_insert_eq.
  unfold read_bytes, unread; simpl. rewrite drop_0.
  assert ((Z.of_nat (pos s) <? 0) = false) as -> by lia.
  unfold cursor_in_range in Hr.
  destruct (len (buf s) <=? Z.of_nat (pos s)) eqn:E; unfold len in E.
  - assert (pos s = length (buf s)) as Hp by lia.
    rewrite Hp, take_ge by lia. f_equal. apply insert_id.
    rewrite Hs. destruct s; simpl in *. by subst.
  - rewrite Nat2Z.id, length_take. f_equal. apply insert_id.
    rewrite Hs. destruct s; simpl in *. f_equal. f_equal. lia.
Qed.

Lemma get_bytes_exact (h : heap) (self : ref) (s : BytesIO)
    (pre a rest : bytes) :
  h !! self = Some s -> buf s = pre ++ a ++ rest -> pos s = length pre ->
  get_bytes self (len a) h = (Ok a, <[self := advance (length a) s]> h).
Proof.
  intros Hs Hb Hp. unfold get_bytes.
  assert (Hf : size_overflows (Some (len a)) s = false).
  { unfold size_overflows, unread, len.
    rewrite Hb, Hp, drop_app_length, length_app. lia. }
  rewrite (bind_run _ _ _ _ _ (packet_read_run h self s _ Hs Hf)).
  rewrite (read_bytes_exact pre a rest s Hb Hp); simpl fst; simpl snd.
  by rewrite Z.ltb_irrefl.
Qed.

Lemma get_int_exact (h : heap) (self : ref) (s : BytesIO)
    (pre rest : bytes) (n : Z) :
  h !! self = Some s -> buf s = pre ++ be_encode 4 n ++ rest ->
  pos s = length pre -> 0 <= n < 2 ^ 32 ->
  get_int self h = (Ok n, <[self := advance 4 s]> h).
Proof.
  intros Hs Hb Hp Hn. unfold get_int.
  pose proof (get_bytes_exact h self s pre (be_encode 4 n) rest Hs Hb Hp) as H.
  rewrite len_be_encode, length_be_encode in H.
  rewrite (bind_run _ _ _ _ _ H).
  unfold struct_unpack_I, struct_unpack.
  rewrite length_be_encode, be_decode_encode, Z.mod_small by done. done.
Qed.

Lemma get_binary_exact (h : heap) (self : ref) (s : BytesIO)
    (pre d rest : bytes) :
  h !! self = Some s -> buf s = pre ++ be_encode 4 (len d) ++ d ++ rest ->
  pos s = length pre -> len d < 2 ^ 32 ->
  get_binary self h = (Ok d, <[self := advance (4 + length d) s]> h).
Proof.
  intros Hs Hb Hp Hd. unfold get_binary.
  assert (Hn : 0 <= len d < 2 ^ 32) by (unfold len in *; lia).
  rewrite (bind_run _ _ _ _ _
             (get_int_exact h self s pre (d ++ rest) (len d) Hs Hb Hp Hn)).
  erewrite (get_bytes_exact _ self (advance 4 s) (pre ++ be_encode 4 (len d))
              d rest).
  - by rewrite insert_insert_eq, advance_advance.
  - apply lookup_insert_eq.
  - simpl. rewrite Hb. by rewrite <- app_assoc.
  - unfold advance; cbn [pos]. rewrite length_app, length_be_encode. lia.
Qed.

Lemma get_string_binary (self : ref) : get_string self = get_binary self.
Proof. reflexivity. Qed.

(** ** Writing *)

Lemma lift_run {A : Type} (r : result A) (h : heap) : lift r h = (r, h).
Proof. by destruct r. Qed.

Section Writing.

Variable deflate_long : Z -> bytes.
Variable util_asbytes : value -> result bytes.

Lemma add_bytes_run (h : heap) (self : ref) (s : BytesIO) (b : bytes) :
  h !! self = Some s -> cursor_in_range s ->
  add_bytes self b h = (Ok self, <[self := overwrite b s]> h).
Proof.
  intros Hs Hr. unfold add_bytes.
  by rewrite (bind_run _ _ _ _ _ (packet_write_run h self s b Hs Hr)).
Qed.

Lemma add_pack_run (width : nat) (h : heap) (self : ref) (s : BytesIO)
    (n : Z) :
  h !! self = Some s -> cursor_in_range s ->
  (p <- lift (struct_pack width n) ;; packet_write self p ;;; ret self) h
  = match struct_pack width n with
    | Ok p => (Ok self, <[self := overwrite p s]> h)
    | Raise e => (Raise e, h)
    end.
Proof.
  intros Hs Hr. destruct (struct_pack width n) as [p|e] eqn:E.
  - rewrite (bind_run _ _ _ _ _ (lift_run (Ok p) h)).
    by rewrite (bind_run _ _ _ _ _ (packet_write_run h self s p Hs Hr)).
  - by rewrite (bind_raise _ _ _ _ _ (lift_run (Raise e) h)).
Qed.

Lemma add_int_run (h : heap) (self : ref) (s : BytesIO) (n : Z) :
  h !! self = Some s -> cursor_in_range s ->
  add_int self n h
  = match struct_pack_I n with
    | Ok p => (Ok self, <[self := overwrite p s]> h)
    | Raise e => (Raise e, h)
    end.
Proof. apply add_pack_run. Qed.

Lemma add_int64_run (h : heap) (self : ref) (s : BytesIO) (n : Z) :
  h !! self = Some s -> cursor_in_range s ->
  add_int64 self n h
  = match struct_pack_Q n with
    | Ok p => (Ok self, <[self := overwrite p s]> h)
    | Raise e => (Raise e, h)
    end.
Proof. apply add_pack_run. Qed.

(** [add_string] writes nothing when it raises: the helper and the packing
    of the length both come before the first write. *)
Lemma add_string_run (h : heap) (self : ref) (s : BytesIO) (v : value) :
  h !! self = Some s -> cursor_in_range s ->
  add_string util_asbytes self v h
  = match wire_string util_asbytes v with
    | Ok w => (Ok self, <[self := overwrite w s]> h)
    | Raise e => (Raise e, h)
    end.
Proof.
  intros Hs Hr. unfold add_string, wire_string.
  destruct (util_asbytes v) as [b|e] eqn:E.
  - rewrite (bind_run _ _ _ _ _ (lift_run (Ok b) h)).
    pose proof (add_int_run h self s (len b) Hs Hr) as Hi.
    destruct (struct_pack_I (len b)) as [p|e] eqn:Ep.
    + rewrite (bind_run _ _ _ _ _ Hi).
      erewrite bind_run
        by (apply packet_write_run;
            [apply lookup_insert_eq | by apply overwrite_in_range]).
      unfold ret. by rewrite insert_insert_eq, overwrite_app.
    + by rewrite (bind_raise _ _ _ _ _ Hi).
  - by rewrite (bind_raise _ _ _ _ _ (lift_run (Raise e) h)).
Qed.

(** A call that completes returns [self] and leaves in the store, at
    [self], the buffer with the wire form of the call stored at the
    cursor. *)
Lemma call_run (h : heap) (self : ref) (s : BytesIO) (c : add_call)
    (w : bytes) :
  h !! self = Some s -> cursor_in_range s ->
  wire deflate_long util_asbytes c = Ok w ->
  call deflate_long util_asbytes self c h
  = (Ok self, <[self := overwrite w s]> h).
Proof.
  intros Hs Hr Hw. destruct c; simpl in Hw; simpl call.
  - injection Hw as <-. by apply add_bytes_run.
  - injection Hw as <-. by apply add_bytes_run.
  - injection Hw as <-. unfold add_boolean.
    destruct b;
      by rewrite (bind_run _ _ _ _ _ (packet_write_run h self s _ Hs Hr)).
  - rewrite (add_int_run h self s n Hs Hr). by rewrite Hw.
  - unfold add_adaptive_int. destruct (n >=? big_int).
    + destruct (wire_string util_asbytes (VBytes (deflate_long n)))
        as [w'|e] eqn:E; [|done]. injection Hw as <-.
      erewrite bind_run; [done|].
      rewrite (bind_run _ _ _ _ _ (packet_write_run h self s max_byte Hs Hr)).
      rewrite (add_string_run _ self (overwrite max_byte s));
        [|apply lookup_insert_eq | by apply overwrite_in_range].
      rewrite E. by rewrite insert_insert_eq, overwrite_app.
    + erewrite bind_run; [done|]. unfold struct_pack_I in *.
      rewrite (add_pack_run 4 h self s n Hs Hr). by rewrite Hw.
  - rewrite (add_int64_run h self s n Hs Hr). by rewrite Hw.
  - unfold add_mpint. erewrite bind_run; [done|].
    rewrite (add_string_run h self s _ Hs Hr). by rewrite Hw.
  - rewrite (add_string_run h self s _ Hs Hr). by rewrite Hw.
  - unfold add_list. destruct (str_join [comma] l) as [j|e]; [|done].
    rewrite (bind_run _ _ _ _ _ (lift_run (Ok j) h)).
    erewrite bind_run; [done|].
    rewrite (add_string_run h self s _ Hs Hr). by rewrite Hw.
Qed.

(** A call whose wire form does not exist raises the same exception. *)
Lemma call_raise (h : heap) (self : ref) (s : BytesIO) (c : add_call)
    (e : exn) :
  h !! self = Some s -> cursor_in_range s ->
  wire deflate_long util_asbytes c = Raise e ->
  fst (call deflate_long util_asbytes self c h) = Raise e.
Proof.
  intros Hs Hr Hw. destruct c; simpl in Hw; simpl call; try done.
  - rewrite (add_int_run h self s n Hs Hr). by rewrite Hw.
  - unfold add_adaptive_int. destruct (n >=? big_int).
    + destruct (wire_string util_asbytes (VBytes (deflate_long n)))
        as [w'|e'] eqn:E; [done|]. injection Hw as <-.
      erewrite bind_raise; [done|].
      rewrite (bind_run _ _ _ _ _ (packet_write_run h self s max_byte Hs Hr)).
      rewrite (add_string_run _ self (overwrite max_byte s));
        [|apply lookup_insert_eq | by apply overwrite_in_range].
      by rewrite E.
    + erewrite bind_raise; [done|]. unfold struct_pack_I in *.
      rewrite (add_pack_run 4 h self s n Hs Hr). by rewrite Hw.
  - rewrite (add_int64_run h self s n Hs Hr). by rewrite Hw.
  - unfold add_mpint. erewrite bind_raise; [done|].
    rewrite (add_string_run h self s _ Hs Hr). by rewrite Hw.
  - rewrite (add_string_run h self s _ Hs Hr). by rewrite Hw.
  - unfold add_list. destruct (str_join [comma] l) as [j|e'].
    + rewrite (bind_run _ _ _ _ _ (lift_run (Ok j) h)).
      erewrite bind_raise; [done|].
      rewrite (add_string_run h self s _ Hs Hr). by rewrite Hw.
    + injection Hw as <-.
      by rewrite (bind_raise _ _ _ _ _ (lift_run (Raise e') h)).
Qed.

End Writing.

(** ** The cursor stays within the content *)

Lemma cursor_in_range_new (content : option bytes) :
  cursor_in_range (BytesIO_new content).
Proof. unfold cursor_in_range. simpl. lia. Qed.

Lemma store_ok_insert (h : heap) (r : ref) (s : BytesIO) :
  store_ok h -> cursor_in_range s -> store_ok (<[r := s]> h).
Proof.
  intros Hh Hs r' s'. destruct (decide (r = r')) as [<-|Hne].
  - rewrite lookup_insert_eq. by intros [= <-].
  - rewrite lookup_insert_ne by done. apply Hh.
Qed.

Lemma preserves_ret {A : Type} (a : A) : preserves (ret a).
Proof. by intros h Hh. Qed.

Lemma preserves_lift {A : Type} (r : result A) : preserves (lift r).
Proof. intros h Hh. by rewrite lift_run. Qed.

Lemma preserves_bind {A B : Type} (c : M A) (k : A -> M B) :
  preserves c -> (forall a, preserves (k a)) -> preserves (bind c k).
Proof.
  intros Hc Hk h Hh. unfold bind. specialize (Hc h Hh).
  destruct (c h) as [[a|e] h1]; simpl in Hc; [by apply Hk | done].
Qed.

Lemma preserves_if {A : Type} (b : bool) (c1 c2 : M A) :
  preserves c1 -> preserves c2 -> preserves (if b then c1 else c2).
Proof. by destruct b. Qed.

Lemma preserves_packet {A : Type} (self : ref)
    (f : BytesIO -> result A * BytesIO) :
  (forall s, cursor_in_range s -> cursor_in_range (snd (f s))) ->
  preserves (packet self f).
Proof.
  intros Hf h Hh. unfold packet.
  destruct (h !! self) as [s|] eqn:Hs; [|done].
  specialize (Hf s (Hh self s Hs)). destruct (f s) as [r s']. simpl in *.
  by apply store_ok_insert.
Qed.

Lemma read_bytes_in_range (size : option Z) (s : BytesIO) :
  cursor_in_range s -> cursor_in_range (snd (read_bytes size s)).
Proof.
  unfold cursor_in_range, read_bytes, unread. destruct s as [B p]; simpl.
  intros Hp.
  assert (Hd : length (drop p B) = (length B - p)%nat) by apply length_drop.
  destruct size as [n|]; [|lia].
  destruct (n <? 0); [lia|]. destruct (len (drop p B) <=? n); [lia|].
  rewrite length_take. lia.
Qed.

Lemma preserves_packet_read (self : ref) (size : option Z) :
  preserves (packet_read self size).
Proof.
  apply preserves_packet. intros s Hs. unfold io_read.
  destruct (size_overflows size s); [done|].
  pose proof (read_bytes_in_range size s Hs). by destruct (read_bytes size s).
Qed.

Lemma preserves_packet_write (self : ref) (b : bytes) :
  preserves (packet_write self b).
Proof.
  apply preserves_packet. intros s Hs.
  pose proof (io_write_in_range b s Hs) as Hw.
  destruct (io_write b s) as [n s']. simpl in *. subst s'.
  by apply overwrite_in_range.
Qed.

Lemma packet_none {A : Type} (f : BytesIO -> result A * BytesIO)
    (h : heap) (self : ref) :
  h !! self = None -> packet self f h = (Raise NoSuchObject, h).
Proof. unfold packet. by intros ->. Qed.

Lemma preserves_rewind (self : ref) : preserves (rewind self).
Proof.
  apply preserves_bind; [|intros; apply preserves_ret].
  apply preserves_packet. intros s _. unfold cursor_in_range. simpl. lia.
Qed.

Lemma preserves_get_remainder (self : ref) : preserves (get_remainder self).
Proof.
  intros h Hh. destruct (h !! self) as [s|] eqn:Hs.
  - by rewrite (get_remainder_run h self s Hs).
  - unfold get_remainder, packet_tell.
    by rewrite (bind_raise _ _ _ _ _ (packet_none _ h self Hs)).
Qed.

Lemma preserves_get_so_far (self : ref) : preserves (get_so_far self).
Proof.
  intros h Hh. destruct (h !! self) as [s|] eqn:Hs.
  - by rewrite (get_so_far_run h self s Hs (Hh self s Hs)).
  - unfold get_so_far, packet_tell.
    by rewrite (bind_raise _ _ _ _ _ (packet_none _ h self Hs)).
Qed.

Lemma preserves_get_bytes (self : ref) (n : Z) : preserves (get_bytes self n).
Proof.
  apply preserves_bind; [apply preserves_packet_read|].
  intros b. apply preserves_if; apply preserves_ret.
Qed.

Lemma preserves_get_int (self : ref) : preserves (get_int self).
Proof.
  apply preserves_bind; [apply preserves_get_bytes|].
  intros b. apply preserves_lift.
Qed.

Lemma preserves_get_binary (self : ref) : preserves (get_binary self).
Proof.
  apply preserves_bind; [apply preserves_get_int|].
  intros n. apply preserves_get_bytes.
Qed.

Section Invariant.

Variable deflate_long : Z -> bytes.
Variable inflate_long : bytes -> Z.
Variable util_asbytes : value -> result bytes.
Variable u : bytes -> result str.

Lemma preserves_add_pack (width : nat) (self : ref) (n : Z) :
  preserves (p <- lift (struct_pack width n) ;;
             packet_write self p ;;; ret self).
Proof.
  apply preserves_bind; [apply preserves_lift|]. intros p.
  apply preserves_bind; [apply preserves_packet_write|].
  intros; apply preserves_ret.
Qed.

Lemma preserves_add_string (self : ref) (v : value) :
  preserves (add_string util_asbytes self v).
Proof.
  apply preserves_bind; [apply preserves_lift|]. intros b.
  apply preserves_bind; [apply (preserves_add_pack 4)|]. intros _.
  apply preserves_bind; [apply preserves_packet_write|].
  intros; apply preserves_ret.
Qed.

Lemma preserves_call (self : ref) (c : add_call) :
  preserves (call deflate_long util_asbytes self c).
Proof.
  destruct c; simpl call.
  - apply preserves_bind; [apply preserves_packet_write|].
    intros; apply preserves_ret.
  - apply preserves_bind; [apply preserves_packet_write|].
    intros; apply preserves_ret.
  - apply preserves_bind; [|intros; apply preserves_ret].
    apply preserves_if; apply preserves_packet_write.
  - apply (preserves_add_pack 4).
  - apply preserves_bind; [|intros; apply preserves_ret].
    apply preserves_if.
    + apply preserves_bind; [apply preserves_packet_write|].
      intros; apply preserves_add_string.
    + apply (preserves_add_pack 4).
  - apply (preserves_add_pack 8).
  - apply preserves_bind; [apply preserves_add_string|].
    intros; apply preserves_ret.
  - apply preserves_add_string.
  - apply preserves_bind; [apply preserves_lift|]. intros j.
    apply preserves_bind; [apply preserves_add_string|].
    intros; apply preserves_ret.
Qed.

Lemma preserves__add (self : ref) (i : value) :
  preserves (_add deflate_long util_asbytes self i).
Proof.
  unfold _add. repeat apply preserves_if.
  - apply (preserves_call self (AddBoolean _)).
  - apply (preserves_call self (AddAdaptiveInt _)).
  - apply (preserves_call self (AddList _)).
  - apply (preserves_call self (AddString _)).
Qed.

Lemma preserves_add (self : ref) (seq : list value) :
  preserves (add deflate_long util_asbytes self seq).
Proof.
  induction seq as [|i seq IH]; simpl add; [apply preserves_ret|].
  apply preserves_bind; [apply preserves__add | done].
Qed.

(** X1.  The invariant of the data model, [0 <= position <= len(content)]:
    the constructor establishes it and every method keeps it, whether it
    returns or raises. *)
Lemma message_invariant (self : ref) :
  (forall content, preserves (__init__ self content))
  /\ preserves (asbytes self)
  /\ preserves (rewind self)
  /\ preserves (get_remainder self)
  /\ preserves (get_so_far self)
  /\ (forall n, preserves (get_bytes self n))
  /\ preserves (get_byte self)
  /\ preserves (get_boolean self)
  /\ preserves (get_adaptive_int inflate_long self)
  /\ preserves (get_int self)
  /\ preserves (get_int64 self)
  /\ preserves (get_mpint inflate_long self)
  /\ preserves (get_string self)
  /\ preserves (get_text u self)
  /\ preserves (get_binary self)
  /\ preserves (get_list u self)
  /\ (forall c, preserves (call deflate_long util_asbytes self c))
  /\ (forall seq, preserves (add deflate_long util_asbytes self seq)).
Proof.
  repeat split.
  - intros content h Hh. apply store_ok_insert; [done|].
    apply cursor_in_range_new.
  - apply preserves_packet. by intros s Hs.
  - apply preserves_rewind.
  - apply preserves_get_remainder.
  - apply preserves_get_so_far.
  - apply preserves_get_bytes.
  - apply preserves_get_bytes.
  - apply preserves_bind; [apply preserves_get_bytes|].
    intros; apply preserves_ret.
  - apply preserves_bind; [apply preserves_get_bytes|]. intros b.
    apply preserves_if.
    + apply preserves_bind; [apply preserves_get_binary|].
      intros; apply preserves_ret.
    + apply preserves_bind; [apply preserves_get_bytes|].
      intros; apply preserves_lift.
  - apply preserves_get_int.
  - apply preserves_bind; [apply preserves_get_bytes|].
    intros; apply preserves_lift.
  - apply preserves_bind; [apply preserves_get_binary|].
    intros; apply preserves_ret.
  - apply preserves_get_binary.
  - apply preserves_bind; [apply preserves_get_binary|].
    intros; apply preserves_lift.
  - apply preserves_get_binary.
  - apply preserves_bind; [|intros; apply preserves_ret].
    apply preserves_bind; [apply preserves_get_binary|].
    intros; apply preserves_lift.
  - apply preserves_call.
  - apply preserves_add.
Qed.

End Invariant.

(** ** Raw byte access *)

Lemma max_pad_size_value : max_pad_size = 1048576.
Proof. reflexivity. Qed.

(** What [get_bytes] does in general: the bytes read, padded when they are
    fewer than [n] and [n] is below the ceiling. *)
Lemma get_bytes_run (h : heap) (self : ref) (s : BytesIO) (n : Z) :
  h !! self = Some s -> size_overflows (Some n) s = false ->
  get_bytes self n h
  = (let b := fst (read_bytes (Some n) s) in
     Ok (if (len b <? n) && (n <? max_pad_size)
         then b ++ bytes_mul zero_byte (n - len b) else b),
     <[self := snd (read_bytes (Some n) s)]> h).
Proof.
  intros Hs Hf. unfold get_bytes.
  rewrite (bind_run _ _ _ _ _ (packet_read_run h self s _ Hs Hf)).
  cbv zeta. by destruct (_ && _).
Qed.

(** A count that [BytesIO.read] refuses: the [OverflowError] goes through
    [get_bytes], and the store is as before. *)
Lemma get_bytes_overflow (h : heap) (self : ref) (s : BytesIO) (n : Z) :
  h !! self = Some s -> size_overflows (Some n) s = true ->
  get_bytes self n h = (Raise OverflowError, h).
Proof.
  intros Hs Hf. unfold get_bytes.
  by rewrite (bind_raise _ _ _ _ _ (packet_read_overflow h self s _ Hs Hf)).
Qed.

(** X2.  A negative count that fits a signed 64-bit size, [-2^63 <= n < 0],
    makes [get_bytes] return every unread byte and move the cursor to the
    end: [BytesIO.read] takes a negative size as "read to the end", as
    [read(-1)] does, and nothing is padded. *)
Lemma get_bytes_negative (h : heap) (self : ref) (s : BytesIO) (n : Z) :
  h !! self = Some s -> - 2 ^ 63 <= n < 0 ->
  get_bytes self n h
  = (Ok (unread s), <[self := advance (length (unread s)) s]> h).
Proof.
  intros Hs Hn.
  rewrite (get_bytes_run h self s n Hs (size_fits s n ltac:(lia))).
  unfold read_bytes. assert ((n <? 0) = true) as -> by lia. cbn [fst snd].
  assert ((len (unread s) <? n) = false) as -> by (unfold len; lia).
  done.
Qed.

(** C1, amended.  [get_bytes(n)], for a byte count [0 <= n < 2^63] (one
    that fits the signed 64-bit size [BytesIO.read] accepts), on a buffer
    with [k] unread bytes: when [k < n < 1048576] the result has exactly
    [n] bytes, the [k] unread bytes followed by [n - k] zero bytes, and the
    cursor advances by [k]; when [k < n] and [n >= 1048576] the [k] unread
    bytes are returned unpadded (the cursor advances by [k]); when
    [k >= n] the next [n] bytes are returned and the cursor advances by
    [n]. *)
Theorem get_bytes_cases (h : heap) (self : ref) (s : BytesIO) (n : Z) :
  h !! self = Some s -> 0 <= n < 2 ^ 63 ->
  let k := len (unread s) in
  (k < n -> n < 1048576 ->
     get_bytes self n h
     = (Ok (unread s ++ replicate (Z.to_nat (n - k)) x00),
        <[self := advance (Z.to_nat k) s]> h)
     /\ len (unread s ++ replicate (Z.to_nat (n - k)) x00) = n)
  /\ (k < n -> 1048576 <= n ->
     get_bytes self n h
     = (Ok (unread s), <[self := advance (Z.to_nat k) s]> h))
  /\ (n <= k ->
     get_bytes self n h
     = (Ok (take (Z.to_nat n) (unread s)),
        <[self := advance (Z.to_nat n) s]> h)
     /\ len (take (Z.to_nat n) (unread s)) = n).
Proof.
  intros Hs Hn k.
  rewrite (get_bytes_run h self s n Hs (size_fits s n ltac:(lia))).
  unfold read_bytes. assert ((n <? 0) = false) as -> by lia.
  fold k. rewrite max_pad_size_value. cbn [fst snd].
  assert (Hk : Z.to_nat k = length (unread s)) by (unfold k, len; lia).
  split; [|split].
  - intros Hlt Hc. assert ((k <=? n) = true) as -> by lia. fold k.
    assert ((k <? n) && (n <? 1048576) = true) as -> by lia.
    rewrite bytes_mul_zero_byte, Hk. split; [done|].
    unfold len. rewrite length_app, length_replicate. unfold k, len in *. lia.
  - intros Hlt Hc. assert ((k <=? n) = true) as -> by lia. fold k.
    assert ((k <? n) && (n <? 1048576) = false) as -> by lia.
    by rewrite Hk.
  - intros Hle.
    assert (Hlen : length (take (Z.to_nat n) (unread s)) = Z.to_nat n).
    { rewrite length_take. unfold k, len in *. lia. }
    assert (Hl : len (take (Z.to_nat n) (unread s)) = n).
    { unfold len. rewrite Hlen. lia. }
    split; [|done].
    destruct (k <=? n) eqn:E.
    + assert (n = k) as Hnk by lia. fold k.
      assert ((k <? n) && (n <? 1048576) = false) as -> by lia.
      rewrite Hnk, Hk, take_ge by lia. done.
    + rewrite Hl, Hlen. by rewrite Z.ltb_irrefl.
Qed.

(** The padding scenario of the spec: [get_bytes(10)] with exactly three
    unread bytes. *)
Lemma get_bytes_cases_witness :
  fst (get_bytes 1 10
         (<[1%positive := BytesIO_new (Some [x61; x62; x63])]> ∅))
  = Ok ([x61; x62; x63] ++ replicate 7 x00).
Proof.
  pose proof (get_bytes_cases
                (<[1%positive := BytesIO_new (Some [x61; x62; x63])]> ∅)
                1%positive (BytesIO_new (Some [x61; x62; x63])) 10
                (lookup_insert_eq _ _ _) ltac:(lia)) as [H _].
  destruct H as [H _]; [vm_compute; reflexivity | lia |].
  rewrite H. reflexivity.
Defined.

(** From [2^63] on the count does not fit the size [BytesIO.read] takes:
    [get_bytes(2^63)] on three unread bytes, a count above the ceiling
    with fewer bytes left, raises [OverflowError] instead of returning
    the three bytes, and the cursor stays where it was. *)
Lemma get_bytes_overflow_raises :
  len (unread (BytesIO_new (Some [x61; x62; x63]))) < 2 ^ 63
  /\ 1048576 <= 2 ^ 63
  /\ get_bytes 1 (2 ^ 63)
       (<[1%positive := BytesIO_new (Some [x61; x62; x63])]> (∅ : heap))
     = (Raise OverflowError,
        <[1%positive := BytesIO_new (Some [x61; x62; x63])]> (∅ : heap)).
Proof.
  split; [by vm_compute|]. split; [by vm_compute|].
  by apply (get_bytes_overflow _ 1%positive
              (BytesIO_new (Some [x61; x62; x63]))).
Qed.

(** The sizes at the two ends of the signed 64-bit range are taken, the
    next ones are refused. *)
Example get_bytes_size_boundaries :
  fst (get_bytes 1 (2 ^ 63 - 1)
         (<[1%positive := mkBytesIO [x61; x62; x63] 1]> (∅ : heap)))
  = Ok [x62; x63]
  /\ fst (get_bytes 1 (- 2 ^ 63)
            (<[1%positive := mkBytesIO [x61; x62; x63] 1]> (∅ : heap)))
     = Ok [x62; x63]
  /\ fst (get_bytes 1 (- 2 ^ 63 - 1)
            (<[1%positive := mkBytesIO [x61; x62; x63] 1]> (∅ : heap)))
     = Raise OverflowError.
Proof. repeat split; vm_compute; reflexivity. Qed.

(** ** Where the encoders write *)

(** A message constructed from [abcd] has its cursor at 0: [add_byte]
    stores [x] over the first byte instead of appending it. *)
Lemma add_byte_overwrites_first_byte :
  fst ((__init__ 1 (Some [x61; x62; x63; x64]) ;;;
        add_byte 1 [x78] ;;;
        asbytes 1) ∅)
  = Ok [x78; x62; x63; x64]
  /\ [x78; x62; x63; x64] <> [x61; x62; x63; x64] ++ [x78].
Proof. split; [vm_compute; reflexivity | discriminate]. Qed.

Section Encoders.

Variable deflate_long : Z -> bytes.
Variable util_asbytes : value -> result bytes.

(** C2, amended.  An [add_*] call that completes stores its bytes at the
    cursor, which reads and writes share: the content before the cursor
    and the content beyond the written bytes are kept, the bytes in
    between are replaced, and the cursor moves past the written bytes.
    When the cursor is at the end of the content, as in a message built
    from empty by [add_*] calls alone, the bytes are appended, every
    stored byte is kept, and the cursor is at the end again. *)
Theorem add_call_stores_at_cursor (h : heap) (self : ref) (s : BytesIO)
    (c : add_call) (w : bytes) :
  h !! self = Some s -> cursor_in_range s ->
  wire deflate_long util_asbytes c = Ok w ->
  exists s' : BytesIO,
    call deflate_long util_asbytes self c h = (Ok self, <[self := s']> h)
    /\ buf s' = take (pos s) (buf s) ++ w ++ drop (pos s + length w) (buf s)
    /\ pos s' = (pos s + length w)%nat
    /\ (pos s = length (buf s) ->
        buf s' = buf s ++ w /\ pos s' = length (buf s')).
Proof.
  intros Hs Hr Hw. exists (overwrite w s).
  split; [by apply call_run|]. split; [done|]. split; [done|].
  intros He. by rewrite (overwrite_at_end w s He).
Qed.

End Encoders.

Lemma add_call_stores_at_cursor_witness :
  exists s' : BytesIO,
    call Util.deflate_long Util.asbytes 1 (AddInt 500)
      (<[1%positive := BytesIO_new None]> ∅)
    = (Ok 1%positive, <[1%positive := s']> (<[1%positive := BytesIO_new None]> ∅))
    /\ buf s' = [x00; x00; x01; xf4].
Proof.
  destruct (add_call_stores_at_cursor Util.deflate_long Util.asbytes
              (<[1%positive := BytesIO_new None]> ∅) 1%positive
              (BytesIO_new None) (AddInt 500) [x00; x00; x01; xf4]
              (lookup_insert_eq _ _ _))
    as (s' & Hc & Hb & _).
  - unfold cursor_in_range. simpl. lia.
  - reflexivity.
  - exists s'. split; [exact Hc | exact Hb].
Defined.

(** ** Encoding into a fresh message and decoding its bytes *)

Lemma overwrite_new (w : bytes) :
  overwrite w (BytesIO_new None) = {| buf := w; pos := length w |}.
Proof.
  rewrite overwrite_at_end by done. simpl. done.
Qed.

Section RoundTrip.

Variable deflate_long : Z -> bytes.
Variable inflate_long : bytes -> Z.
Variable util_asbytes : value -> result bytes.
Variable u : bytes -> result str.

Lemma round_trip_run {A : Type} (h : heap) (self peer : ref)
    (c : add_call) (dec : ref -> M A) (w : bytes) (v : A) :
  wire deflate_long util_asbytes c = Ok w ->
  (forall h1, h1 !! peer = Some (BytesIO_new (Some w)) ->
              fst (dec peer h1) = Ok v) ->
  fst (round_trip self peer
         (fun m => call deflate_long util_asbytes m c) dec h)
  = Ok (w, v).
Proof.
  intros Hw Hdec. unfold round_trip.
  erewrite bind_run by reflexivity.
  erewrite bind_run
    by (eapply call_run;
        [apply lookup_insert_eq | apply cursor_in_range_new | exact Hw]).
  erewrite bind_run by (apply packet_getvalue_run, lookup_insert_eq).
  erewrite bind_run by reflexivity.
  rewrite overwrite_new. cbn [buf]. unfold bind.
  match goal with
  | |- context [dec peer ?h1] =>
      pose proof (Hdec h1 (lookup_insert_eq _ _ _)) as Hv;
      destruct (dec peer h1) as [[v'|e] h2]
  end; simpl in Hv; [|done]. by injection Hv as ->.
Qed.

Lemma round_trip_raise {A : Type} (h : heap) (self peer : ref)
    (c : add_call) (dec : ref -> M A) (e : exn) :
  wire deflate_long util_asbytes c = Raise e ->
  fst (round_trip self peer
         (fun m => call deflate_long util_asbytes m c) dec h)
  = Raise e.
Proof.
  intros Hw. unfold round_trip.
  erewrite bind_run by reflexivity.
  pose proof (call_raise deflate_long util_asbytes
                (<[self := BytesIO_new None]> h) self (BytesIO_new None)
                c e (lookup_insert_eq _ _ _) (cursor_in_range_new None) Hw)
    as Hc.
  unfold bind at 1.
  destruct (call deflate_long util_asbytes self c _) as [[r|e'] h2];
    simpl in Hc; [done|]. by injection Hc as ->.
Qed.

(** *** Adaptive integers *)

Lemma top_byte_not_marker (n : Z) :
  0 <= n < big_int -> byte_of_Z (n / 256 ^ 3) <> xff.
Proof.
  unfold big_int. intros Hn Heq.
  apply (f_equal Z_of_byte) in Heq. rewrite Z_of_byte_of_Z in Heq.
  change (Z_of_byte xff) with 255 in Heq.
  assert (0 <= n / 256 ^ 3 < 255).
  { split; [apply Z.div_pos; lia|]. apply Z.div_lt_upper_bound; lia. }
  rewrite Z.mod_small in Heq by lia. lia.
Qed.

(** The 4-byte form: the byte tested against the marker is the first
    byte of the integer. *)
Lemma get_adaptive_int_plain (h : heap) (self : ref) (s : BytesIO)
    (pre rest : bytes) (n : Z) :
  h !! self = Some s -> buf s = pre ++ be_encode 4 n ++ rest ->
  pos s = length pre -> 0 <= n < big_int ->
  get_adaptive_int inflate_long self h
  = (Ok n, <[self := advance 4 s]> h).
Proof.
  intros Hs Hb Hp Hn. unfold get_adaptive_int.
  change (be_encode 4 n) with ([byte_of_Z (n / 256 ^ 3)] ++ be_encode 3 n)
    in Hb.
  rewrite <- app_assoc in Hb.
  pose proof (get_bytes_exact h self s pre _ _ Hs Hb Hp) as H1.
  change (len [byte_of_Z (n / 256 ^ 3)]) with 1 in H1.
  rewrite (bind_run _ _ _ _ _ H1).
  rewrite bytes_eqb_neq
    by (unfold max_byte; intros [= Hx]; by apply (top_byte_not_marker n)).
  pose proof (get_bytes_exact (<[self := advance 1 s]> h) self (advance 1 s)
                (pre ++ [byte_of_Z (n / 256 ^ 3)]) (be_encode 3 n) rest
                (lookup_insert_eq _ _ _)) as H3.
  rewrite len_be_encode, length_be_encode in H3.
  erewrite bind_run.
  2:{ apply H3.
      - cbn [buf advance]. rewrite Hb. by rewrite <- app_assoc.
      - cbn [pos advance]. rewrite length_app. simpl. lia. }
  rewrite lift_run, insert_insert_eq, advance_advance.
  change ([byte_of_Z (n / 256 ^ 3)] ++ be_encode 3 n) with (be_encode 4 n).
  unfold struct_unpack_I, struct_unpack.
  rewrite length_be_encode, be_decode_encode, Z.mod_small
    by (unfold big_int in Hn; lia).
  done.
Qed.

(** The marked form: the marker byte, then an mpint. *)
Lemma get_adaptive_int_marked (h : heap) (self : ref) (s : BytesIO)
    (pre d rest : bytes) :
  h !! self = Some s ->
  buf s = pre ++ max_byte ++ be_encode 4 (len d) ++ d ++ rest ->
  pos s = length pre -> len d < 2 ^ 32 ->
  get_adaptive_int inflate_long self h
  = (Ok (inflate_long d), <[self := advance (1 + (4 + length d)) s]> h).
Proof.
  intros Hs Hb Hp Hd. unfold get_adaptive_int.
  pose proof (get_bytes_exact h self s pre max_byte _ Hs Hb Hp) as H1.
  change (len max_byte) with 1 in H1.
  rewrite (bind_run _ _ _ _ _ H1), bytes_eqb_refl.
  erewrite bind_run.
  2:{ apply (get_binary_exact _ self (advance 1 s) (pre ++ max_byte) d rest).
      - apply lookup_insert_eq.
      - cbn [buf advance]. rewrite Hb. by rewrite <- app_assoc.
      - cbn [pos advance]. rewrite length_app. simpl. lia.
      - done. }
  unfold ret. by rewrite insert_insert_eq, advance_advance.
Qed.

End RoundTrip.

(** ** The modelled [paramiko.util] *)

Lemma deflate_long_length (n : Z) :
  0 < n -> Util.byte_length n <= len (Util.deflate_long n).
Proof.
  intros Hn. unfold Util.deflate_long.
  assert ((n <=? 0) = false) as -> by lia.
  assert (Hb : 0 < Util.byte_length n).
  { unfold Util.byte_length. pose proof (Z.log2_nonneg n).
    assert (0 <= Z.log2 n / 8) by (apply Z.div_pos; lia). lia. }
  pose proof (len_be_encode (Z.to_nat (Util.byte_length n)) n) as Hl.
  destruct (be_encode (Z.to_nat (Util.byte_length n)) n) as [|top natural].
  - unfold len in Hl. simpl in Hl. lia.
  - destruct (128 <=? Z_of_byte top); unfold len in *;
      rewrite ?length_cons in *; lia.
Qed.

Lemma byte_length_bounds (n : Z) :
  0 < n ->
  0 < Util.byte_length n
  /\ 256 ^ (Util.byte_length n - 1) <= n < 256 ^ Util.byte_length n.
Proof.
  intros Hn. unfold Util.byte_length.
  pose proof (Z.log2_nonneg n) as HL. pose proof (Z.log2_spec n Hn) as Hs.
  set (L := Z.log2 n) in *.
  pose proof (Z.div_mod L 8 ltac:(lia)) as Hdm.
  pose proof (Z.mod_pos_bound L 8 ltac:(lia)) as Hm.
  assert (0 <= L / 8) by (apply Z.div_pos; lia).
  split; [lia|].
  change 256 with (2 ^ 8). rewrite <- !Z.pow_mul_r by lia.
  split.
  - transitivity (2 ^ L); [|lia]. apply Z.pow_le_mono_r; lia.
  - apply Z.lt_le_trans with (2 ^ Z.succ L); [lia|].
    apply Z.pow_le_mono_r; lia.
Qed.

Lemma deflate_long_length_upper (n : Z) :
  0 <= n -> len (Util.deflate_long n) <= Util.byte_length n + 1.
Proof.
  intros Hn. unfold Util.deflate_long.
  destruct (n <=? 0) eqn:E.
  - assert (n = 0) as -> by lia. by vm_compute.
  - destruct (byte_length_bounds n ltac:(lia)) as [Hb _].
    pose proof (len_be_encode (Z.to_nat (Util.byte_length n)) n) as Hl.
    destruct (be_encode (Z.to_nat (Util.byte_length n)) n) as [|top natural].
    + unfold len. simpl. lia.
    + destruct (128 <=? Z_of_byte top); unfold len in *;
        rewrite ?length_cons in *; lia.
Qed.

(** The modelled [inflate_long] inverts the modelled [deflate_long] on the
    non-negative integers. *)
Lemma inflate_deflate (n : Z) :
  0 <= n -> Util.inflate_long (Util.deflate_long n) = n.
Proof.
  intros Hn. unfold Util.deflate_long.
  destruct (n <=? 0) eqn:E.
  - assert (n = 0) as -> by lia. reflexivity.
  - destruct (byte_length_bounds n ltac:(lia)) as [Hb [_ Hu]].
    pose proof (be_decode_encode (Z.to_nat (Util.byte_length n)) n) as Hd.
    rewrite Z2Nat.id, Z.mod_small in Hd by lia.
    destruct (be_encode (Z.to_nat (Util.byte_length n)) n)
      as [|top natural] eqn:En.
    + change (be_decode []) with 0 in Hd. lia.
    + destruct (128 <=? Z_of_byte top) eqn:Et.
      * unfold Util.inflate_long.
        change (Z_of_byte x00) with 0.
        assert ((128 <=? 0) = false) as -> by lia.
        rewrite be_decode_cons. change (Z_of_byte x00) with 0. lia.
      * unfold Util.inflate_long. by rewrite Et.
Qed.

(** The modelled helpers meet, at every non-negative integer whose
    shortest form leaves room in the length field, the contract under which
    the adaptive-int round trip is stated. *)
Lemma util_contract (n : Z) :
  0 <= n -> Util.byte_length n + 1 < 2 ^ 32 ->
  Util.asbytes (VBytes (Util.deflate_long n)) = Ok (Util.deflate_long n)
  /\ Util.inflate_long (Util.deflate_long n) = n
  /\ len (Util.deflate_long n) < 2 ^ 32.
Proof.
  intros Hn Hb. split; [reflexivity|]. split; [by apply inflate_deflate|].
  pose proof (deflate_long_length_upper n Hn). lia.
Qed.

Lemma asbytes_bytes (b : bytes) : Util.asbytes (VBytes b) = Ok b.
Proof. reflexivity. Qed.

Lemma huge_positive : 0 < huge.
Proof. unfold huge. apply Z.pow_pos_nonneg; lia. Qed.

Lemma huge_above_big_int : big_int <= huge.
Proof.
  unfold huge. transitivity (2 ^ 32); [by vm_compute|].
  apply Z.pow_le_mono_r; lia.
Qed.

Lemma byte_length_huge : Util.byte_length huge = 4294967297.
Proof.
  unfold Util.byte_length.
  assert (Z.log2 huge = 34359738368) as ->; [|reflexivity].
  unfold huge. apply Z.log2_pow2. lia.
Qed.

(** ** The codecs *)

Section Codec.

Variable deflate_long : Z -> bytes.
Variable inflate_long : bytes -> Z.
Variable util_asbytes : value -> result bytes.
Variable u : bytes -> result str.

(** C3, amended.  For every non-negative integer [n] whose
    [deflate_long] form is shorter than [2^32] bytes, encoding with
    [add_adaptive_int] and decoding the produced bytes from their start
    with [get_adaptive_int] returns [n]; the produced bytes are the plain
    4-byte big-endian form exactly when [n < 0xff000000], and otherwise
    the marker byte [0xff] followed by the length-prefixed
    [deflate_long] form of [n].  The helpers are taken with their
    contract: [asbytes] leaves [bytes] unchanged and [inflate_long]
    inverts [deflate_long] at [n]. *)
Theorem adaptive_int_round_trip (h : heap) (self peer : ref) (n : Z) :
  0 <= n ->
  (big_int <= n ->
     util_asbytes (VBytes (deflate_long n)) = Ok (deflate_long n)
     /\ inflate_long (deflate_long n) = n
     /\ len (deflate_long n) < 2 ^ 32) ->
  fst (round_trip self peer
         (fun m => add_adaptive_int deflate_long util_asbytes m n)
         (get_adaptive_int inflate_long) h)
  = Ok (if n <? 0xff000000 then be_encode 4 n
        else xff :: be_encode 4 (len (deflate_long n)) ++ deflate_long n,
        n).
Proof.
  intros Hn Hbig.
  apply (round_trip_run deflate_long util_asbytes h self peer
           (AddAdaptiveInt n)).
  - cbn [wire]. unfold big_int in *.
    destruct (n <? 4278190080) eqn:E.
    + assert ((n >=? 4278190080) = false) as -> by lia.
      apply struct_pack_range. change (256 ^ Z.of_nat 4) with 4294967296. lia.
    + assert ((n >=? 4278190080) = true) as -> by lia.
      destruct Hbig as (Ha & _ & Hl); [lia|].
      unfold wire_string. rewrite Ha.
      unfold struct_pack_I. rewrite struct_pack_range; [done|].
      change (256 ^ Z.of_nat 4) with 4294967296.
      change (2 ^ 32) with 4294967296 in Hl. unfold len in *. lia.
  - intros h1 Hp. simpl in Hp.
    destruct (n <? 4278190080) eqn:E.
    + erewrite (get_adaptive_int_plain inflate_long h1 peer _ [] [] n);
        [done | exact Hp | by rewrite app_nil_r | done
        | unfold big_int; lia].
    + destruct Hbig as (_ & Hi & Hl); [unfold big_int; lia|].
      erewrite (get_adaptive_int_marked inflate_long h1 peer _ []
                  (deflate_long n) []);
        [by rewrite Hi | exact Hp | by rewrite app_nil_r | done
        | done].
Qed.

(** The length field of a string has four bytes: an integer whose
    [deflate_long] form has [2^32] bytes or more cannot be encoded. *)
Lemma adaptive_int_too_long {A : Type} (dec : ref -> M A) (h : heap)
    (self peer : ref) (n : Z) :
  big_int <= n ->
  util_asbytes (VBytes (deflate_long n)) = Ok (deflate_long n) ->
  2 ^ 32 <= len (deflate_long n) ->
  fst (round_trip self peer
         (fun m => add_adaptive_int deflate_long util_asbytes m n) dec h)
  = Raise StructError.
Proof.
  intros Hn Ha Hl.
  apply (round_trip_raise deflate_long util_asbytes h self peer
           (AddAdaptiveInt n)).
  cbn [wire]. assert ((n >=? big_int) = true) as -> by lia.
  unfold wire_string. rewrite Ha.
  unfold struct_pack_I. by rewrite struct_pack_error.
Qed.

(** *** Arbitrary-precision integers *)

Lemma get_mpint_exact (h : heap) (self : ref) (s : BytesIO)
    (pre d rest : bytes) :
  h !! self = Some s -> buf s = pre ++ be_encode 4 (len d) ++ d ++ rest ->
  pos s = length pre -> len d < 2 ^ 32 ->
  get_mpint inflate_long self h
  = (Ok (inflate_long d), <[self := advance (4 + length d) s]> h).
Proof.
  intros Hs Hb Hp Hd. unfold get_mpint.
  by rewrite (bind_run _ _ _ _ _
                (get_binary_exact h self s pre d rest Hs Hb Hp Hd)).
Qed.

(** C6.  Under the contract that [deflate_long(0)] is the empty byte
    sequence and that [inflate_long] of the empty sequence is 0 (and that
    [asbytes] leaves the empty [bytes] unchanged), [add_mpint(0)] emits
    exactly the four bytes [00 00 00 00], and [get_mpint] on those bytes
    returns 0. *)
Theorem mpint_zero (h : heap) (self peer : ref) :
  deflate_long 0 = [] -> inflate_long [] = 0 ->
  util_asbytes (VBytes []) = Ok [] ->
  fst (round_trip self peer
         (fun m => add_mpint deflate_long util_asbytes m 0)
         (get_mpint inflate_long) h)
  = Ok ([x00; x00; x00; x00], 0).
Proof.
  intros Hd Hi Ha.
  apply (round_trip_run deflate_long util_asbytes h self peer (AddMpint 0)).
  - cbn [wire]. unfold wire_string. rewrite Hd, Ha. reflexivity.
  - intros h1 Hp.
    erewrite (get_mpint_exact h1 peer _ [] [] []);
      [by rewrite Hi | exact Hp | reflexivity | reflexivity | reflexivity].
Qed.

(** *** Lists *)

Lemma get_list_exact (h : heap) (self : ref) (s : BytesIO)
    (pre d rest : bytes) (t : str) :
  h !! self = Some s -> buf s = pre ++ be_encode 4 (len d) ++ d ++ rest ->
  pos s = length pre -> len d < 2 ^ 32 -> u d = Ok t ->
  get_list u self h
  = (Ok (str_split comma t), <[self := advance (4 + length d) s]> h).
Proof.
  intros Hs Hb Hp Hd Hu. unfold get_list, get_text.
  rewrite get_string_binary.
  erewrite bind_run; [done|].
  rewrite (bind_run _ _ _ _ _
             (get_binary_exact h self s pre d rest Hs Hb Hp Hd)).
  by rewrite lift_run, Hu.
Qed.

(** What a list becomes on the way through the wire: its elements are
    joined with commas and the text received is split at every comma. *)
Lemma list_round_trip (h : heap) (self peer : ref) (l : list value)
    (j t : str) (b : bytes) :
  str_join [comma] l = Ok j -> util_asbytes (VStr j) = Ok b ->
  len b < 2 ^ 32 -> u b = Ok t ->
  fst (round_trip self peer (fun m => add_list util_asbytes m l)
         (get_list u) h)
  = Ok (be_encode 4 (len b) ++ b, str_split comma t).
Proof.
  intros Hj Ha Hl Hu.
  apply (round_trip_run (fun _ => []) util_asbytes h self peer (AddList l)).
  - cbn [wire]. rewrite Hj. unfold wire_string. rewrite Ha.
    unfold struct_pack_I. rewrite struct_pack_range; [done|].
    change (256 ^ Z.of_nat 4) with (2 ^ 32). unfold len in *. lia.
  - intros h1 Hp.
    erewrite (get_list_exact h1 peer _ [] b [] t);
      [done | exact Hp | by rewrite app_nil_r | done | done | done].
Qed.

(** C9.  [get_list] on a string whose payload is empty returns the
    one-element list holding the empty string, not the empty list; hence
    [add_list] of the empty list followed by [get_list] yields [[""]]:
    the empty list does not make the round trip.  (The helpers are taken
    with their contract on the empty text: it is encoded as, and decoded
    from, the empty byte sequence.) *)
Theorem empty_list_round_trip (h : heap) (self peer : ref) (s : BytesIO)
    (pre rest : bytes) :
  util_asbytes (VStr []) = Ok [] -> u [] = Ok [] ->
  h !! self = Some s -> buf s = pre ++ [x00; x00; x00; x00] ++ rest ->
  pos s = length pre ->
  get_list u self h = (Ok [[]], <[self := advance 4 s]> h)
  /\ fst (round_trip self peer (fun m => add_list util_asbytes m [])
            (get_list u) h)
     = Ok ([x00; x00; x00; x00], [[]])
  /\ [[]] <> ([] : list str).
Proof.
  intros Ha Hu Hs Hb Hp. split; [|split; [|done]].
  - by apply (get_list_exact h self s pre [] rest []).
  - by apply (list_round_trip h self peer [] [] [] []).
Qed.

End Codec.

Lemma adaptive_int_round_trip_witness :
  fst (round_trip 1 2
         (fun m => add_adaptive_int Util.deflate_long Util.asbytes m 0xff000000)
         (get_adaptive_int Util.inflate_long) ∅)
  = Ok ([xff; x00; x00; x00; x05; x00; xff; x00; x00; x00], 0xff000000).
Proof.
  apply (adaptive_int_round_trip Util.deflate_long Util.inflate_long
           Util.asbytes ∅ 1%positive 2%positive 0xff000000).
  - lia.
  - intros _. split; [reflexivity|]. split; vm_compute; reflexivity.
Defined.

(** The boundary values of the spec. *)
Example adaptive_int_boundary_plain :
  fst (round_trip 1 2
         (fun m => add_adaptive_int Util.deflate_long Util.asbytes m 0xfeffffff)
         (get_adaptive_int Util.inflate_long) ∅)
  = Ok ([xfe; xff; xff; xff], 0xfeffffff).
Proof. vm_compute. reflexivity. Qed.

(** The length field of a string has four bytes: [huge] is a non-negative
    integer whose [deflate_long] form does not fit, and
    [add_adaptive_int] raises [struct.error] instead of producing bytes
    that decode to it. *)
Lemma adaptive_int_huge_raises :
  0 <= huge
  /\ fst (round_trip 1 2
           (fun m => add_adaptive_int Util.deflate_long Util.asbytes m huge)
           (get_adaptive_int Util.inflate_long) ∅)
     = Raise StructError.
Proof.
  split; [pose proof huge_positive; lia|].
  apply (adaptive_int_too_long Util.deflate_long Util.asbytes).
  - apply huge_above_big_int.
  - apply asbytes_bytes.
  - pose proof (deflate_long_length huge huge_positive) as Hl.
    rewrite byte_length_huge in Hl.
    change (2 ^ 32) with 4294967296. lia.
Qed.

Lemma mpint_zero_witness :
  fst (round_trip 1 2
         (fun m => add_mpint Util.deflate_long Util.asbytes m 0)
         (get_mpint Util.inflate_long) ∅)
  = Ok ([x00; x00; x00; x00], 0).
Proof.
  apply (mpint_zero Util.deflate_long Util.inflate_long Util.asbytes
           ∅ 1%positive 2%positive); reflexivity.
Defined.

Lemma empty_list_round_trip_witness :
  get_list Util.u 1
    (<[1%positive := BytesIO_new (Some [x00; x00; x00; x00])]> ∅)
  = (Ok [[]],
     <[1%positive := advance 4 (BytesIO_new (Some [x00; x00; x00; x00]))]>
       (<[1%positive := BytesIO_new (Some [x00; x00; x00; x00])]> ∅))
  /\ fst (round_trip 1 2 (fun m => add_list Util.asbytes m [])
            (get_list Util.u)
            (<[1%positive := BytesIO_new (Some [x00; x00; x00; x00])]> ∅))
     = Ok ([x00; x00; x00; x00], [[]])
  /\ [[]] <> ([] : list str).
Proof.
  apply (empty_list_round_trip Util.asbytes Util.u
           (<[1%positive := BytesIO_new (Some [x00; x00; x00; x00])]> ∅)
           1%positive 2%positive
           (BytesIO_new (Some [x00; x00; x00; x00])) [] []);
    reflexivity.
Defined.

(** C5.  Encoding the list [["a,b", "c"]] with [add_list] and decoding the
    bytes with [get_list] yields the three elements ["a"], ["b"], ["c"] and
    not the two elements that were encoded: a comma inside an element is
    not escaped. *)
Theorem list_with_comma_round_trip (h : heap) (self peer : ref) :
  fst (round_trip self peer
         (fun m => add_list Util.asbytes m [VStr (text "a,b"); VStr (text "c")])
         (get_list Util.u) h)
  = Ok ([x00; x00; x00; x05; x61; x2c; x62; x2c; x63],
        [text "a"; text "b"; text "c"])
  /\ [text "a"; text "b"; text "c"] <> [text "a,b"; text "c"].
Proof.
  split; [|discriminate].
  apply (list_round_trip Util.asbytes Util.u h self peer
           [VStr (text "a,b"); VStr (text "c")] (text "a,b,c") (text "a,b,c")
           [x61; x2c; x62; x2c; x63]); reflexivity.
Qed.

(** ** Introspection *)

(** C4.  At every cursor position within the content, [get_so_far()]
    followed by [get_remainder()] is the full content of the buffer, and
    neither call changes the cursor (nor anything else in the store). *)
Theorem so_far_remainder (h : heap) (self : ref) (s : BytesIO) :
  h !! self = Some s -> cursor_in_range s ->
  exists a b : bytes,
    get_so_far self h = (Ok a, h)
    /\ get_remainder self h = (Ok b, h)
    /\ asbytes self h = (Ok (a ++ b), h).
Proof.
  intros Hs Hr. exists (take (pos s) (buf s)), (drop (pos s) (buf s)).
  split; [by apply get_so_far_run|]. split; [by apply get_remainder_run|].
  rewrite take_drop. by apply packet_getvalue_run.
Qed.

Lemma so_far_remainder_witness :
  exists a b : bytes,
    get_so_far 1 (<[1%positive := {| buf := [x61; x62; x63]; pos := 1 |}]> ∅)
    = (Ok a, <[1%positive := {| buf := [x61; x62; x63]; pos := 1 |}]> ∅)
    /\ get_remainder 1
         (<[1%positive := {| buf := [x61; x62; x63]; pos := 1 |}]> ∅)
       = (Ok b, <[1%positive := {| buf := [x61; x62; x63]; pos := 1 |}]> ∅)
    /\ asbytes 1 (<[1%positive := {| buf := [x61; x62; x63]; pos := 1 |}]> ∅)
       = (Ok (a ++ b),
          <[1%positive := {| buf := [x61; x62; x63]; pos := 1 |}]> ∅).
Proof.
  apply (so_far_remainder
           (<[1%positive := {| buf := [x61; x62; x63]; pos := 1 |}]> ∅)
           1%positive {| buf := [x61; x62; x63]; pos := 1 |}).
  - reflexivity.
  - unfold cursor_in_range. simpl. lia.
Defined.

(** ** Aliases and dispatch *)

(** C8.  [get_binary] and [get_string] are the same operation: on every
    store they return the same result and leave the same store. *)
Theorem get_binary_is_get_string (self : ref) (h : heap) :
  get_binary self h = get_string self h.
Proof. reflexivity. Qed.

Section Dispatch.

Variable deflate_long : Z -> bytes.
Variable util_asbytes : value -> result bytes.

(** C7.  The generic [add] encodes every item by kind, in the fixed
    order boolean, integer, list, anything else: a boolean by
    [add_boolean] (although it is an instance of [int] as well), an
    integer by [add_adaptive_int] and by nothing else, a list by
    [add_list], and every other value by [add_string]; a sequence of
    items is encoded item by item, from left to right. *)
Theorem add_dispatch (self : ref) :
  (forall b, isinstance (VBool b) TInt = true
             /\ _add deflate_long util_asbytes self (VBool b)
                = add_boolean self b)
  /\ (forall n, _add deflate_long util_asbytes self (VInt n)
                = add_adaptive_int deflate_long util_asbytes self n)
  /\ (forall l, _add deflate_long util_asbytes self (VList l)
                = add_list util_asbytes self l)
  /\ (forall s, _add deflate_long util_asbytes self (VStr s)
                = add_string util_asbytes self (VStr s))
  /\ (forall b, _add deflate_long util_asbytes self (VBytes b)
                = add_string util_asbytes self (VBytes b))
  /\ _add deflate_long util_asbytes self VNone
     = add_string util_asbytes self VNone
  /\ add deflate_long util_asbytes self [] = ret tt
  /\ (forall i seq,
        add deflate_long util_asbytes self (i :: seq)
        = (_add deflate_long util_asbytes self i ;;;
           add deflate_long util_asbytes self seq)).
Proof. repeat split; reflexivity. Qed.

(** ** Fluent calls *)

(** C10.  Each of the nine [add_*] methods, when it completes, returns
    [self]: the very reference it was called on, which now designates
    the mutated buffer; no other object of the store is created or
    changed, so the result is not a copy. *)
Theorem add_returns_self (h h' : heap) (self r : ref) (s : BytesIO)
    (c : add_call) :
  h !! self = Some s -> cursor_in_range s ->
  call deflate_long util_asbytes self c h = (Ok r, h') ->
  r = self
  /\ (exists w, wire deflate_long util_asbytes c = Ok w
                /\ h' !! r = Some (overwrite w s))
  /\ (forall o, o <> self -> h' !! o = h !! o).
Proof.
  intros Hs Hr Hc.
  destruct (wire deflate_long util_asbytes c) as [w|e] eqn:Hw.
  - rewrite (call_run _ _ h self s c w Hs Hr Hw) in Hc.
    injection Hc as <- <-. split; [done|]. split.
    + exists w. split; [done|]. apply lookup_insert_eq.
    + intros o Ho. by apply lookup_insert_ne.
  - pose proof (call_raise _ _ h self s c e Hs Hr Hw) as He.
    rewrite Hc in He. done.
Qed.

(** X3.  Calls chain: [m.add_x(..).add_y(..)] writes both wire forms, one
    after the other, into [m], and returns [m]. *)
Lemma add_calls_chain (h : heap) (self : ref) (s : BytesIO)
    (c1 c2 : add_call) (w1 w2 : bytes) :
  h !! self = Some s -> cursor_in_range s ->
  wire deflate_long util_asbytes c1 = Ok w1 ->
  wire deflate_long util_asbytes c2 = Ok w2 ->
  (m <- call deflate_long util_asbytes self c1 ;;
   call deflate_long util_asbytes m c2) h
  = (Ok self, <[self := overwrite (w1 ++ w2) s]> h).
Proof.
  intros Hs Hr H1 H2.
  rewrite (bind_run _ _ _ _ _ (call_run _ _ h self s c1 w1 Hs Hr H1)).
  rewrite (call_run _ _ _ self (overwrite w1 s) c2 w2);
    [|apply lookup_insert_eq | by apply overwrite_in_range | done].
  by rewrite insert_insert_eq, overwrite_app.
Qed.

End Dispatch.

Lemma add_returns_self_witness :
  1%positive = 1%positive
  /\ (exists w, wire Util.deflate_long Util.asbytes (AddInt 500) = Ok w
                /\ (<[1%positive := overwrite [x00; x00; x01; xf4]
                                      (BytesIO_new None)]>
                      (<[1%positive := BytesIO_new None]> (∅ : heap))) !! 1%positive
                   = Some (overwrite w (BytesIO_new None)))
  /\ (forall o, o <> 1%positive ->
        (<[1%positive := overwrite [x00; x00; x01; xf4] (BytesIO_new None)]>
           (<[1%positive := BytesIO_new None]> (∅ : heap))) !! o
        = (<[1%positive := BytesIO_new None]> (∅ : heap)) !! o).
Proof.
  apply (add_returns_self Util.deflate_long Util.asbytes
           (<[1%positive := BytesIO_new None]> (∅ : heap)) _ 1%positive 1%positive
           (BytesIO_new None) (AddInt 500)).
  - reflexivity.
  - apply cursor_in_range_new.
  - apply (call_run Util.deflate_long Util.asbytes
             (<[1%positive := BytesIO_new None]> (∅ : heap)) 1%positive
             (BytesIO_new None) (AddInt 500) [x00; x00; x01; xf4]);
      [reflexivity | apply cursor_in_range_new | reflexivity].
Defined.

(** ** The concrete scenarios of the spec *)

Example scenario_boolean :
  fst (round_trip 1 2 (fun m => add_boolean m true) get_boolean ∅)
  = Ok ([x01], true).
Proof. vm_compute. reflexivity. Qed.

Example scenario_int32 :
  fst (round_trip 1 2 (fun m => add_int m 500) get_int ∅)
  = Ok ([x00; x00; x01; xf4], 500).
Proof. vm_compute. reflexivity. Qed.

Example scenario_string :
  fst (round_trip 1 2
         (fun m => add_string Util.asbytes m (VStr (text "hello")))
         (get_text Util.u) ∅)
  = Ok ([x00; x00; x00; x05; x68; x65; x6c; x6c; x6f], text "hello").
Proof. vm_compute. reflexivity. Qed.

Example scenario_adaptive_int :
  fst (round_trip 1 2
         (fun m => add_adaptive_int Util.deflate_long Util.asbytes m 4294967295)
         (get_adaptive_int Util.inflate_long) ∅)
  = Ok ([xff; x00; x00; x00; x05; x00; xff; xff; xff; xff], 4294967295).
Proof. vm_compute. reflexivity. Qed.

Example scenario_list :
  fst (round_trip 1 2
         (fun m => add_list Util.asbytes m
                     [VStr (text "a"); VStr (text "b"); VStr (text "c")])
         (get_list Util.u) ∅)
  = Ok ([x00; x00; x00; x05; x61; x2c; x62; x2c; x63],
        [text "a"; text "b"; text "c"]).
Proof. vm_compute. reflexivity. Qed.

(** A truncated stream is read as if it went on with zero bytes. *)
Example scenario_truncated_int :
  fst ((__init__ 1 (Some [x01; x02]) ;;; get_int 1) ∅) = Ok 0x01020000.
Proof. vm_compute. reflexivity. Qed.

(** After writing, the cursor is at the end: reading from the same message
    without [rewind] finds nothing, and after [rewind] finds what was
    written. *)
Example scenario_shared_cursor :
  fst ((__init__ 1 None ;;; add_int 1 500 ;;; get_int 1) ∅) = Ok 0
  /\ fst ((__init__ 1 None ;;; add_int 1 500 ;;; rewind 1 ;;; get_int 1) ∅)
     = Ok 500.
Proof. split; vm_compute; reflexivity. Qed.

(** * Further properties of the code *)

(** ** Lenient reads *)

Lemma unread_advance (k : nat) (s : BytesIO) :
  unread (advance k s) = drop k (unread s).
Proof. unfold unread, advance; simpl. by rewrite drop_drop. Qed.

Lemma length_zero_extended (n : nat) (U : bytes) :
  length (zero_extended n U) = n.
Proof.
  unfold zero_extended.
  rewrite length_take, length_app, length_replicate. lia.
Qed.

(** Below the ceiling [get_bytes(n)] reads the stream as if it went on
    with zero bytes. *)
Lemma get_bytes_small (h : heap) (self : ref) (s : BytesIO) (n : Z) :
  h !! self = Some s -> 0 <= n < 1048576 ->
  get_bytes self n h
  = (Ok (zero_extended (Z.to_nat n) (unread s)),
     <[self := advance (Nat.min (Z.to_nat n) (length (unread s))) s]> h).
Proof.
  intros Hs Hn.
  rewrite (get_bytes_run h self s n Hs (size_fits s n ltac:(lia))).
  unfold read_bytes, zero_extended. assert ((n <? 0) = false) as -> by lia.
  rewrite max_pad_size_value. cbn [fst snd]. fold (advance 0 s).
  set (U := unread s). unfold len.
  destruct (Z.of_nat (length U) <=? n) eqn:E.
  - rewrite take_app_ge, take_replicate by lia.
    replace (Nat.min (Z.to_nat n) (length U)) with (length U) by lia.
    f_equal. f_equal.
    destruct (Z.of_nat (length U) <? n) eqn:E2.
    + assert ((n <? 1048576) = true) as -> by lia. simpl andb. cbv iota.
      rewrite bytes_mul_zero_byte. do 2 f_equal. lia.
    + simpl andb. cbv iota.
      replace (Z.to_nat n - length U)%nat with 0%nat by lia.
      simpl. by rewrite app_nil_r.
  - rewrite take_app_le by lia.
    assert (Hl : length (take (Z.to_nat n) U) = Z.to_nat n)
      by (rewrite length_take; lia).
    rewrite Hl, Z2Nat.id, Z.ltb_irrefl by lia. simpl andb. cbv iota.
    by replace (Nat.min (Z.to_nat n) (length U)) with (Z.to_nat n) by lia.
Qed.

(** X4.  Below the ceiling, [get_bytes(n)] returns exactly [n] bytes:
    byte [i] of the result is the byte of the content at [position + i]
    where the content has one, and the zero byte beyond its end; the
    cursor stops at the end of the content. *)
Theorem get_bytes_zero_extended (h : heap) (self : ref) (s : BytesIO) (n : Z) :
  h !! self = Some s -> 0 <= n < 1048576 ->
  exists r : bytes,
    get_bytes self n h
    = (Ok r, <[self := advance (Nat.min (Z.to_nat n) (length (unread s))) s]> h)
    /\ length r = Z.to_nat n
    /\ forall i : nat, (i < Z.to_nat n)%nat ->
         r !! i = Some (default x00 (buf s !! (pos s + i)%nat)).
Proof.
  intros Hs Hn. exists (zero_extended (Z.to_nat n) (unread s)).
  split; [by apply get_bytes_small|]. split; [apply length_zero_extended|].
  intros i Hi. unfold zero_extended.
  rewrite lookup_take. destruct (decide (i < Z.to_nat n)%nat); [|lia].
  destruct (decide (i < length (unread s))%nat) as [Hlt|Hge].
  - rewrite lookup_app_l by done. unfold unread in *. rewrite lookup_drop.
    rewrite length_drop in Hlt.
    destruct (lookup_lt_is_Some_2 (buf s) (pos s + i)) as [x Hx]; [lia|].
    by rewrite Hx.
  - rewrite lookup_app_r by lia. rewrite lookup_replicate_2 by lia.
    unfold unread in Hge. rewrite length_drop in Hge.
    by rewrite (lookup_ge_None_2 (buf s) (pos s + i)) by lia.
Qed.

Lemma get_bytes_zero_extended_witness :
  exists r : bytes,
    get_bytes 1 5 (<[1%positive := mkBytesIO [x61; x62; x63] 1]> (∅ : heap))
    = (Ok r,
       <[1%positive := advance 2 (mkBytesIO [x61; x62; x63] 1)]>
         (<[1%positive := mkBytesIO [x61; x62; x63] 1]> (∅ : heap)))
    /\ length r = 5%nat
    /\ forall i : nat, (i < 5)%nat ->
         r !! i = Some (default x00 ([x61; x62; x63] !! (1 + i)%nat)).
Proof.
  apply (get_bytes_zero_extended
           (<[1%positive := mkBytesIO [x61; x62; x63] 1]> (∅ : heap))
           1%positive (mkBytesIO [x61; x62; x63] 1) 5).
  - reflexivity.
  - lia.
Defined.

(** X5.  For every count that fits a signed 64-bit size, negative or
    beyond the end, [get_bytes] returns without raising, and the result
    is no longer than the unread bytes or, when those are fewer, than the
    padding ceiling allows (at most 1048575 bytes); the cursor never
    passes the end of the content, and the content is left as it is.  For
    every other count (the content being shorter than [2^63] bytes, as
    every [bytes] object is) [get_bytes] raises [OverflowError] and leaves
    the store as it was. *)
Theorem get_bytes_bounded (h : heap) (self : ref) (s : BytesIO) (n : Z) :
  h !! self = Some s -> len (buf s) < 2 ^ 63 ->
  if (n <? - 2 ^ 63) || (2 ^ 63 <=? n)
  then get_bytes self n h = (Raise OverflowError, h)
  else exists (r : bytes) (k : nat),
         get_bytes self n h = (Ok r, <[self := advance k s]> h)
         /\ len r <= Z.max (len (unread s)) 1048575
         /\ (k <= length (unread s))%nat.
Proof.
  intros Hs Hl. destruct ((n <? - 2 ^ 63) || (2 ^ 63 <=? n)) eqn:Hn.
  - apply (get_bytes_overflow h self s n Hs).
    apply size_overflows_iff; [done | lia].
  - rewrite (get_bytes_run h self s n Hs (size_fits s n ltac:(lia))).
    unfold read_bytes. cbn [fst snd]. rewrite max_pad_size_value.
    set (U := unread s).
    set (d := if n <? 0 then U
              else if len U <=? n then U else take (Z.to_nat n) U).
    assert (Hd : (length d <= length U)%nat).
    { unfold d. destruct (n <? 0); [done|]. destruct (len U <=? n); [done|].
      rewrite length_take. lia. }
    eexists _, (length d). split; [reflexivity|]. split; [|done].
    destruct (_ && _) eqn:E; unfold len in *.
    + rewrite bytes_mul_zero_byte, length_app, length_replicate. lia.
    + lia.
Qed.

Lemma get_bytes_bounded_witness :
  exists (r : bytes) (k : nat),
    get_bytes 1 4294967295
      (<[1%positive := mkBytesIO [x61; x62; x63] 1]> (∅ : heap))
    = (Ok r,
       <[1%positive := advance k (mkBytesIO [x61; x62; x63] 1)]>
         (<[1%positive := mkBytesIO [x61; x62; x63] 1]> (∅ : heap)))
    /\ len r <= Z.max (len (unread (mkBytesIO [x61; x62; x63] 1))) 1048575
    /\ (k <= length (unread (mkBytesIO [x61; x62; x63] 1)))%nat.
Proof.
  apply (get_bytes_bounded
           (<[1%positive := mkBytesIO [x61; x62; x63] 1]> (∅ : heap))
           1%positive (mkBytesIO [x61; x62; x63] 1) 4294967295).
  - reflexivity.
  - vm_compute. reflexivity.
Defined.

Lemma get_bytes_negative_witness :
  get_bytes 1 (-1) (<[1%positive := mkBytesIO [x61; x62; x63] 1]> (∅ : heap))
  = (Ok [x62; x63],
     <[1%positive := advance 2 (mkBytesIO [x61; x62; x63] 1)]>
       (<[1%positive := mkBytesIO [x61; x62; x63] 1]> (∅ : heap))).
Proof.
  apply (get_bytes_negative
           (<[1%positive := mkBytesIO [x61; x62; x63] 1]> (∅ : heap))
           1%positive (mkBytesIO [x61; x62; x63] 1) (-1)).
  - reflexivity.
  - lia.
Defined.

(** ** Scalar decoders on any stream *)

(** X6.  [get_int] and [get_int64] never raise, whatever is left of the
    stream: they decode the next 4 (8) bytes of the zero-extended stream
    as a big-endian integer, which lies in [0, 2^32) (in [0, 2^64)), and
    the cursor stops at the end of the content. *)
Theorem get_int_total (h : heap) (self : ref) (s : BytesIO) :
  h !! self = Some s ->
  (get_int self h
   = (Ok (be_decode (zero_extended 4 (unread s))),
      <[self := advance (Nat.min 4 (length (unread s))) s]> h)
   /\ 0 <= be_decode (zero_extended 4 (unread s)) < 2 ^ 32)
  /\ (get_int64 self h
      = (Ok (be_decode (zero_extended 8 (unread s))),
         <[self := advance (Nat.min 8 (length (unread s))) s]> h)
      /\ 0 <= be_decode (zero_extended 8 (unread s)) < 2 ^ 64).
Proof.
  intros Hs. split; split.
  - unfold get_int.
    rewrite (bind_run _ _ _ _ _ (get_bytes_small h self s 4 Hs ltac:(lia))).
    rewrite lift_run. unfold struct_unpack_I, struct_unpack.
    by rewrite length_zero_extended.
  - pose proof (be_decode_range (zero_extended 4 (unread s))) as Hr.
    unfold len in Hr. by rewrite length_zero_extended in Hr.
  - unfold get_int64.
    rewrite (bind_run _ _ _ _ _ (get_bytes_small h self s 8 Hs ltac:(lia))).
    rewrite lift_run. unfold struct_unpack_Q, struct_unpack.
    by rewrite length_zero_extended.
  - pose proof (be_decode_range (zero_extended 8 (unread s))) as Hr.
    unfold len in Hr. by rewrite length_zero_extended in Hr.
Qed.

Lemma get_int_total_witness :
  (get_int 1 (<[1%positive := mkBytesIO [x01; x02] 0]> (∅ : heap))
   = (Ok (be_decode (zero_extended 4 (unread (mkBytesIO [x01; x02] 0)))),
      <[1%positive := advance (Nat.min 4 (length (unread (mkBytesIO [x01; x02] 0))))
                        (mkBytesIO [x01; x02] 0)]>
        (<[1%positive := mkBytesIO [x01; x02] 0]> (∅ : heap)))
   /\ 0 <= be_decode (zero_extended 4 (unread (mkBytesIO [x01; x02] 0))) < 2 ^ 32)
  /\ (get_int64 1 (<[1%positive := mkBytesIO [x01; x02] 0]> (∅ : heap))
      = (Ok (be_decode (zero_extended 8 (unread (mkBytesIO [x01; x02] 0)))),
         <[1%positive := advance (Nat.min 8 (length (unread (mkBytesIO [x01; x02] 0))))
                           (mkBytesIO [x01; x02] 0)]>
           (<[1%positive := mkBytesIO [x01; x02] 0]> (∅ : heap)))
      /\ 0 <= be_decode (zero_extended 8 (unread (mkBytesIO [x01; x02] 0)))
         < 2 ^ 64).
Proof.
  apply (get_int_total (<[1%positive := mkBytesIO [x01; x02] 0]> (∅ : heap))
           1%positive (mkBytesIO [x01; x02] 0)).
  reflexivity.
Defined.

(** X7.  [get_boolean] never raises: it is true exactly when there is a
    next byte and that byte is not zero; at the end of the stream it is
    false and the cursor stays where it is. *)
Theorem get_boolean_cases (h : heap) (self : ref) (s : BytesIO) :
  h !! self = Some s ->
  get_boolean self h
  = (Ok (match unread s with
         | x :: _ => negb (Byte.eqb x x00)
         | [] => false
         end),
     <[self := advance (Nat.min 1 (length (unread s))) s]> h).
Proof.
  intros Hs. unfold get_boolean.
  rewrite (bind_run _ _ _ _ _ (get_bytes_small h self s 1 Hs ltac:(lia))).
  unfold ret. do 3 f_equal.
  destruct (unread s) as [|x U]; [done|].
  unfold zero_extended, zero_byte. simpl. by rewrite andb_true_r.
Qed.

Lemma get_boolean_cases_witness :
  get_boolean 1 (<[1%positive := mkBytesIO [x07] 0]> (∅ : heap))
  = (Ok true,
     <[1%positive := advance 1 (mkBytesIO [x07] 0)]>
       (<[1%positive := mkBytesIO [x07] 0]> (∅ : heap))).
Proof.
  apply (get_boolean_cases (<[1%positive := mkBytesIO [x07] 0]> (∅ : heap))
           1%positive (mkBytesIO [x07] 0)).
  reflexivity.
Defined.

Section AdaptiveReads.

Variable inflate_long : bytes -> Z.

(** X8.  Unless the next byte of the stream is the marker [0xff],
    [get_adaptive_int] is [get_int]: same result, same final store, also
    on a stream that ends within the four bytes. *)
Theorem get_adaptive_int_as_get_int (h : heap) (self : ref) (s : BytesIO) :
  h !! self = Some s -> head (unread s) <> Some xff ->
  get_adaptive_int inflate_long self h = get_int self h.
Proof.
  intros Hs Hm. unfold get_adaptive_int, get_int.
  rewrite (bind_run _ _ _ _ _ (get_bytes_small h self s 1 Hs ltac:(lia))).
  rewrite (bind_run _ _ _ _ _ (get_bytes_small h self s 4 Hs ltac:(lia))).
  rewrite bytes_eqb_neq.
  2:{ unfold max_byte, zero_extended. destruct (unread s) as [|x U]; [done|].
      simpl. intros [= ->]. by apply Hm. }
  erewrite bind_run
    by (apply get_bytes_small; [apply lookup_insert_eq | lia]).
  rewrite insert_insert_eq, advance_advance, unread_advance.
  change (Z.to_nat 1) with 1%nat. change (Z.to_nat 3) with 3%nat.
  change (Z.to_nat 4) with 4%nat.
  assert (Hcat : zero_extended 1 (unread s)
                 ++ zero_extended 3 (drop (Nat.min 1 (length (unread s)))
                                        (unread s))
                 = zero_extended 4 (unread s)
                 /\ (Nat.min 1 (length (unread s))
                     + Nat.min 3 (length (drop (Nat.min 1 (length (unread s)))
                                            (unread s))))%nat
                    = Nat.min 4 (length (unread s))).
  { destruct (unread s) as [|a [|b [|c [|d U]]]]; by simpl. }
  destruct Hcat as [-> ->]. done.
Qed.

End AdaptiveReads.

Lemma get_adaptive_int_as_get_int_witness :
  get_adaptive_int Util.inflate_long 1
    (<[1%positive := mkBytesIO [x01; x02] 0]> (∅ : heap))
  = get_int 1 (<[1%positive := mkBytesIO [x01; x02] 0]> (∅ : heap)).
Proof.
  apply (get_adaptive_int_as_get_int Util.inflate_long
           (<[1%positive := mkBytesIO [x01; x02] 0]> (∅ : heap))
           1%positive (mkBytesIO [x01; x02] 0)).
  - reflexivity.
  - discriminate.
Defined.

(** ** Encoders that raise *)

Lemma overwrite_nil (s : BytesIO) : cursor_in_range s -> overwrite [] s = s.
Proof.
  unfold cursor_in_range, overwrite. destruct s as [B p]; simpl. intros Hp.
  by rewrite Nat.add_0_r, take_drop.
Qed.

(** X9.  [add_int] accepts exactly the integers of [0, 2^32) and
    [add_int64] exactly those of [0, 2^64): inside the range the
    big-endian bytes are stored at the cursor and [self] is returned;
    outside it [struct.error] is raised and the store is left as it was. *)
Theorem add_int_range (h : heap) (self : ref) (s : BytesIO) (n : Z) :
  h !! self = Some s -> cursor_in_range s ->
  add_int self n h
  = (if (0 <=? n) && (n <? 2 ^ 32)
     then (Ok self, <[self := overwrite (be_encode 4 n) s]> h)
     else (Raise StructError, h))
  /\ add_int64 self n h
     = (if (0 <=? n) && (n <? 2 ^ 64)
        then (Ok self, <[self := overwrite (be_encode 8 n) s]> h)
        else (Raise StructError, h)).
Proof.
  intros Hs Hr. split.
  - rewrite (add_int_run h self s n Hs Hr).
    unfold struct_pack_I, struct_pack.
    change (256 ^ Z.of_nat 4) with (2 ^ 32). by destruct (_ && _).
  - rewrite (add_int64_run h self s n Hs Hr).
    unfold struct_pack_Q, struct_pack.
    change (256 ^ Z.of_nat 8) with (2 ^ 64). by destruct (_ && _).
Qed.

Lemma add_int_range_witness :
  add_int 1 (-1) (<[1%positive := BytesIO_new None]> (∅ : heap))
  = (if (0 <=? -1) && (-1 <? 2 ^ 32)
     then (Ok 1%positive,
           <[1%positive := overwrite (be_encode 4 (-1)) (BytesIO_new None)]>
             (<[1%positive := BytesIO_new None]> (∅ : heap)))
     else (Raise StructError, <[1%positive := BytesIO_new None]> (∅ : heap)))
  /\ add_int64 1 (-1) (<[1%positive := BytesIO_new None]> (∅ : heap))
     = (if (0 <=? -1) && (-1 <? 2 ^ 64)
        then (Ok 1%positive,
              <[1%positive := overwrite (be_encode 8 (-1)) (BytesIO_new None)]>
                (<[1%positive := BytesIO_new None]> (∅ : heap)))
        else (Raise StructError,
              <[1%positive := BytesIO_new None]> (∅ : heap))).
Proof.
  apply (add_int_range (<[1%positive := BytesIO_new None]> (∅ : heap))
           1%positive (BytesIO_new None) (-1)).
  - reflexivity.
  - apply cursor_in_range_new.
Defined.

Section Failures.

Variable deflate_long : Z -> bytes.
Variable util_asbytes : value -> result bytes.

(** X10.  An [add_*] call that raises has written nothing, the store is
    as before the call: the helper, the join of a list and the packing of
    an integer or of a length all come before the first write.  The one
    exception is [add_adaptive_int] of a value from [0xff000000] on, which
    writes its marker byte first. *)
Theorem failed_call_writes_nothing (h : heap) (self : ref) (s : BytesIO)
    (c : add_call) (e : exn) :
  h !! self = Some s -> cursor_in_range s ->
  wire deflate_long util_asbytes c = Raise e ->
  match c with AddAdaptiveInt n => n < big_int | _ => True end ->
  call deflate_long util_asbytes self c h = (Raise e, h).
Proof.
  intros Hs Hr Hw Hc. destruct c; simpl in Hw; simpl call; try done.
  - rewrite (add_int_run h self s n Hs Hr). by rewrite Hw.
  - unfold add_adaptive_int.
    assert ((n >=? big_int) = false) as Hlt by lia. rewrite Hlt in *.
    erewrite bind_raise; [done|]. unfold struct_pack_I in *.
    rewrite (add_pack_run 4 h self s n Hs Hr). by rewrite Hw.
  - rewrite (add_int64_run h self s n Hs Hr). by rewrite Hw.
  - unfold add_mpint. erewrite bind_raise; [done|].
    rewrite (add_string_run _ h self s _ Hs Hr). by rewrite Hw.
  - rewrite (add_string_run _ h self s _ Hs Hr). by rewrite Hw.
  - unfold add_list. destruct (str_join [comma] l) as [j|e'].
    + rewrite (bind_run _ _ _ _ _ (lift_run (Ok j) h)).
      erewrite bind_raise; [done|].
      rewrite (add_string_run _ h self s _ Hs Hr). by rewrite Hw.
    + injection Hw as <-.
      by rewrite (bind_raise _ _ _ _ _ (lift_run (Raise e') h)).
Qed.

(** X11.  When [add_adaptive_int] of a value from [0xff000000] on fails in
    [add_string] (the helper rejects the bytes, or they are too long for
    the length field), the marker byte [0xff] has already been stored at
    the cursor: the exception leaves the message one byte longer or
    overwritten by one byte. *)
Theorem add_adaptive_int_partial_write (h : heap) (self : ref) (s : BytesIO)
    (n : Z) (e : exn) :
  h !! self = Some s -> cursor_in_range s -> big_int <= n ->
  wire_string util_asbytes (VBytes (deflate_long n)) = Raise e ->
  add_adaptive_int deflate_long util_asbytes self n h
  = (Raise e, <[self := overwrite max_byte s]> h).
Proof.
  intros Hs Hr Hn Hw. unfold add_adaptive_int.
  assert ((n >=? big_int) = true) as -> by lia.
  erewrite bind_raise; [done|].
  rewrite (bind_run _ _ _ _ _ (packet_write_run h self s max_byte Hs Hr)).
  rewrite (add_string_run _ _ self (overwrite max_byte s));
    [|apply lookup_insert_eq | by apply overwrite_in_range].
  by rewrite Hw.
Qed.

(** *** The generic [add] *)

Lemma _add_as_call (self : ref) (i : value) :
  _add deflate_long util_asbytes self i
  = call deflate_long util_asbytes self (value_call i).
Proof.
  unfold _add, value_call.
  destruct (pytype_eqb (type i) TBool); [done|].
  destruct (isinstance i TInt); [done|].
  by destruct (pytype_eqb (type i) TList).
Qed.

(** X13.  The generic [add] stores the wire forms of its items one after the
    other, in the order of the sequence, starting at the cursor, and
    returns [None]. *)
Theorem add_writes_in_order (h : heap) (self : ref) (s : BytesIO)
    (seq : list value) (ws : list bytes) :
  h !! self = Some s -> cursor_in_range s ->
  Forall2 (fun i w => wire deflate_long util_asbytes (value_call i) = Ok w)
    seq ws ->
  add deflate_long util_asbytes self seq h
  = (Ok tt, <[self := overwrite (concat ws) s]> h).
Proof.
  intros Hs Hr Hf. revert h s Hs Hr.
  induction Hf as [|i w seq ws Hw Hf IH]; intros h s Hs Hr.
  - simpl. unfold ret. by rewrite overwrite_nil, insert_id.
  - simpl add. rewrite _add_as_call.
    rewrite (bind_run _ _ _ _ _ (call_run _ _ h self s _ w Hs Hr Hw)).
    rewrite (IH _ (overwrite w s));
      [|apply lookup_insert_eq | by apply overwrite_in_range].
    simpl concat. by rewrite insert_insert_eq, overwrite_app.
Qed.

End Failures.

Lemma failed_call_writes_nothing_witness :
  call Util.deflate_long Util.asbytes 1 (AddList [VStr (text "a"); VInt 1])
    (<[1%positive := BytesIO_new None]> (∅ : heap))
  = (Raise TypeError, <[1%positive := BytesIO_new None]> (∅ : heap)).
Proof.
  apply (failed_call_writes_nothing Util.deflate_long Util.asbytes
           (<[1%positive := BytesIO_new None]> (∅ : heap)) 1%positive
           (BytesIO_new None) (AddList [VStr (text "a"); VInt 1]) TypeError).
  - reflexivity.
  - apply cursor_in_range_new.
  - reflexivity.
  - exact I.
Defined.

Lemma add_adaptive_int_partial_write_witness :
  add_adaptive_int (fun _ => []) (fun _ => Raise TypeError) 1 0xff000000
    (<[1%positive := BytesIO_new None]> (∅ : heap))
  = (Raise TypeError,
     <[1%positive := overwrite max_byte (BytesIO_new None)]>
       (<[1%positive := BytesIO_new None]> (∅ : heap))).
Proof.
  apply (add_adaptive_int_partial_write (fun _ => [])
           (fun _ => Raise TypeError)
           (<[1%positive := BytesIO_new None]> (∅ : heap)) 1%positive
           (BytesIO_new None) 0xff000000 TypeError).
  - reflexivity.
  - apply cursor_in_range_new.
  - unfold big_int. lia.
  - reflexivity.
Defined.

Lemma add_writes_in_order_witness :
  add Util.deflate_long Util.asbytes 1 [VBool true; VInt 500]
    (<[1%positive := BytesIO_new None]> (∅ : heap))
  = (Ok tt,
     <[1%positive := overwrite (concat [[x01]; [x00; x00; x01; xf4]])
                       (BytesIO_new None)]>
       (<[1%positive := BytesIO_new None]> (∅ : heap))).
Proof.
  apply (add_writes_in_order Util.deflate_long Util.asbytes
           (<[1%positive := BytesIO_new None]> (∅ : heap)) 1%positive
           (BytesIO_new None) [VBool true; VInt 500]
           [[x01]; [x00; x00; x01; xf4]]).
  - reflexivity.
  - apply cursor_in_range_new.
  - repeat constructor.
Defined.

(** ** Messages of several fields *)

Lemma advance_0 (s : BytesIO) : advance 0 s = s.
Proof. unfold advance. destruct s; simpl. by rewrite Nat.add_0_r. Qed.

Lemma get_int64_exact (h : heap) (self : ref) (s : BytesIO)
    (pre rest : bytes) (n : Z) :
  h !! self = Some s -> buf s = pre ++ be_encode 8 n ++ rest ->
  pos s = length pre -> 0 <= n < 2 ^ 64 ->
  get_int64 self h = (Ok n, <[self := advance 8 s]> h).
Proof.
  intros Hs Hb Hp Hn. unfold get_int64.
  pose proof (get_bytes_exact h self s pre (be_encode 8 n) rest Hs Hb Hp) as H.
  rewrite len_be_encode, length_be_encode in H.
  rewrite (bind_run _ _ _ _ _ H).
  unfold struct_unpack_Q, struct_unpack.
  rewrite length_be_encode, be_decode_encode, Z.mod_small by done. done.
Qed.

Lemma get_boolean_exact (h : heap) (self : ref) (s : BytesIO)
    (pre rest : bytes) (b : bool) :
  h !! self = Some s ->
  buf s = pre ++ (if b then one_byte else zero_byte) ++ rest ->
  pos s = length pre ->
  get_boolean self h = (Ok b, <[self := advance 1 s]> h).
Proof.
  intros Hs Hb Hp. unfold get_boolean.
  pose proof (get_bytes_exact h self s pre _ rest Hs Hb Hp) as H.
  destruct b.
  - change (len one_byte) with 1 in H. by rewrite (bind_run _ _ _ _ _ H).
  - change (len zero_byte) with 1 in H. by rewrite (bind_run _ _ _ _ _ H).
Qed.

Section FieldsFacts.

Variable deflate_long : Z -> bytes.
Variable inflate_long : bytes -> Z.
Variable util_asbytes : value -> result bytes.

Lemma add_field_run (h : heap) (self : ref) (s : BytesIO) (f : field) :
  encodable deflate_long inflate_long util_asbytes f ->
  h !! self = Some s -> cursor_in_range s ->
  add_field deflate_long util_asbytes self f h
  = (Ok self, <[self := overwrite (field_wire deflate_long f) s]> h).
Proof.
  intros He Hs Hr. destruct f; simpl in He; simpl field_wire.
  - by apply (call_run deflate_long util_asbytes h self s (AddBoolean b)).
  - apply (call_run deflate_long util_asbytes h self s (AddInt n)); [done..|].
    apply struct_pack_range. by change (256 ^ Z.of_nat 4) with (2 ^ 32).
  - apply (call_run deflate_long util_asbytes h self s (AddInt64 n)); [done..|].
    apply struct_pack_range. by change (256 ^ Z.of_nat 8) with (2 ^ 64).
  - apply (call_run deflate_long util_asbytes h self s (AddAdaptiveInt n));
      [done..|].
    cbn [wire]. destruct He as [Hn Hc]. unfold big_int in *.
    destruct (n <? 4278190080) eqn:E.
    + assert ((n >=? 4278190080) = false) as -> by lia.
      apply struct_pack_range. change (256 ^ Z.of_nat 4) with 4294967296. lia.
    + assert ((n >=? 4278190080) = true) as -> by lia.
      destruct Hc as (Ha & _ & Hl); [lia|].
      unfold wire_string. rewrite Ha.
      unfold struct_pack_I. rewrite struct_pack_range; [done|].
      change (256 ^ Z.of_nat 4) with (2 ^ 32). unfold len in *. lia.
  - apply (call_run deflate_long util_asbytes h self s (AddMpint z)); [done..|].
    cbn [wire]. destruct He as (Ha & _ & Hl).
    unfold wire_string. rewrite Ha.
    unfold struct_pack_I. rewrite struct_pack_range; [done|].
    change (256 ^ Z.of_nat 4) with (2 ^ 32). unfold len in *. lia.
  - apply (call_run deflate_long util_asbytes h self s (AddString (VBytes b)));
      [done..|].
    cbn [wire]. destruct He as [Ha Hl].
    unfold wire_string. rewrite Ha.
    unfold struct_pack_I. rewrite struct_pack_range; [done|].
    change (256 ^ Z.of_nat 4) with (2 ^ 32). unfold len in *. lia.
Qed.

Lemma get_field_exact (h : heap) (self : ref) (s : BytesIO)
    (pre rest : bytes) (f : field) :
  encodable deflate_long inflate_long util_asbytes f ->
  h !! self = Some s ->
  buf s = pre ++ field_wire deflate_long f ++ rest -> pos s = length pre ->
  get_field inflate_long self (kind_of f) h
  = (Ok f, <[self := advance (length (field_wire deflate_long f)) s]> h).
Proof.
  intros He Hs Hb Hp.
  destruct f; cbn [encodable field_wire] in He, Hb;
    cbn [get_field kind_of field_wire].
  - rewrite (bind_run _ _ _ _ _ (get_boolean_exact h self s pre rest b Hs Hb Hp)).
    by destruct b.
  - rewrite (bind_run _ _ _ _ _ (get_int_exact h self s pre rest n Hs Hb Hp He)).
    by rewrite length_be_encode.
  - rewrite (bind_run _ _ _ _ _
               (get_int64_exact h self s pre rest n Hs Hb Hp He)).
    by rewrite length_be_encode.
  - destruct He as [Hn Hc]. destruct (n <? big_int) eqn:E.
    + rewrite (bind_run _ _ _ _ _
                 (get_adaptive_int_plain inflate_long h self s pre rest n
                    Hs Hb Hp ltac:(lia))).
      by rewrite length_be_encode.
    + destruct Hc as (_ & Hi & Hl); [lia|].
      rewrite <- !app_assoc in Hb.
      rewrite (bind_run _ _ _ _ _
                 (get_adaptive_int_marked inflate_long h self s pre
                    (deflate_long n) rest Hs Hb Hp Hl)).
      rewrite Hi. unfold ret.
      rewrite !length_app, length_be_encode. done.
  - destruct He as (_ & Hi & Hl). rewrite <- app_assoc in Hb.
    rewrite (bind_run _ _ _ _ _
               (get_mpint_exact inflate_long h self s pre (deflate_long z)
                  rest Hs Hb Hp Hl)).
    rewrite Hi. unfold ret.
    rewrite length_app, length_be_encode. done.
  - destruct He as [_ Hl]. rewrite <- app_assoc in Hb.
    rewrite get_string_binary.
    rewrite (bind_run _ _ _ _ _
               (get_binary_exact h self s pre b rest Hs Hb Hp Hl)).
    unfold ret.
    rewrite length_app, length_be_encode. done.
Qed.

Lemma add_fields_run (h : heap) (self : ref) (s : BytesIO) (fs : list field) :
  Forall (encodable deflate_long inflate_long util_asbytes) fs ->
  h !! self = Some s -> cursor_in_range s ->
  add_fields deflate_long util_asbytes self fs h
  = (Ok tt,
     <[self := overwrite (concat (map (field_wire deflate_long) fs)) s]> h).
Proof.
  intros Hf. revert h s.
  induction Hf as [|f fs He Hf IH]; intros h s Hs Hr.
  - simpl. unfold ret. by rewrite overwrite_nil, insert_id.
  - simpl add_fields.
    rewrite (bind_run _ _ _ _ _ (add_field_run h self s f He Hs Hr)).
    rewrite (IH _ (overwrite (field_wire deflate_long f) s));
      [|apply lookup_insert_eq | by apply overwrite_in_range].
    simpl. by rewrite insert_insert_eq, overwrite_app.
Qed.

Lemma get_fields_exact (h : heap) (self : ref) (s : BytesIO)
    (pre rest : bytes) (fs : list field) :
  Forall (encodable deflate_long inflate_long util_asbytes) fs ->
  h !! self = Some s ->
  buf s = pre ++ concat (map (field_wire deflate_long) fs) ++ rest ->
  pos s = length pre ->
  get_fields inflate_long self (map kind_of fs) h
  = (Ok fs,
     <[self := advance (length (concat (map (field_wire deflate_long) fs))) s]>
       h).
Proof.
  intros Hf. revert h s pre.
  induction Hf as [|f fs He Hf IH]; intros h s pre Hs Hb Hp.
  - simpl. unfold ret. by rewrite advance_0, insert_id.
  - simpl get_fields. simpl in Hb. rewrite <- app_assoc in Hb.
    rewrite (bind_run _ _ _ _ _ (get_field_exact h self s pre _ f He Hs Hb Hp)).
    erewrite bind_run.
    2:{ apply (IH _ (advance (length (field_wire deflate_long f)) s)
                 (pre ++ field_wire deflate_long f)).
        - apply lookup_insert_eq.
        - cbn [buf advance]. rewrite Hb. by rewrite <- app_assoc.
        - cbn [pos advance]. rewrite length_app. lia. }
    unfold ret. rewrite insert_insert_eq, advance_advance.
    simpl. by rewrite length_app.
Qed.

(** X12.  A message built from any sequence of encodable fields
    (booleans, 32- and 64-bit integers, adaptive integers, mpints, byte
    strings) and parsed by the getters of the same kinds in the same order
    returns exactly those fields: every getter consumes what its adder
    wrote and leaves the cursor at the start of the next field. *)
Theorem message_round_trip (h : heap) (self peer : ref) (fs : list field) :
  Forall (encodable deflate_long inflate_long util_asbytes) fs ->
  fst (message_round_trip_of deflate_long inflate_long util_asbytes
         self peer fs h)
  = Ok fs.
Proof.
  intros Hf. unfold message_round_trip_of.
  erewrite bind_run by reflexivity.
  erewrite bind_run
    by (apply add_fields_run;
        [done | apply lookup_insert_eq | apply cursor_in_range_new]).
  erewrite bind_run by (apply packet_getvalue_run, lookup_insert_eq).
  erewrite bind_run by reflexivity.
  rewrite overwrite_new. cbn [buf].
  erewrite (get_fields_exact _ peer _ [] [] fs Hf);
    [done | apply lookup_insert_eq | by rewrite app_nil_r | done].
Qed.

End FieldsFacts.

Lemma message_round_trip_witness :
  fst (message_round_trip_of Util.deflate_long Util.inflate_long Util.asbytes
         1 2
         [FBoolean true; FString [x68; x69]; FAdaptiveInt 0xff000000;
          FInt 500; FMpint 0x1234567890; FInt64 0x100000000]
         ∅)
  = Ok [FBoolean true; FString [x68; x69]; FAdaptiveInt 0xff000000;
        FInt 500; FMpint 0x1234567890; FInt64 0x100000000].
Proof.
  apply (message_round_trip Util.deflate_long Util.inflate_long Util.asbytes
           ∅ 1%positive 2%positive).
  apply Forall_cons; split; [exact I|].
  apply Forall_cons; split; [split; [reflexivity | vm_compute; reflexivity]|].
  apply Forall_cons; split.
  { split; [lia|]. intros _.
    split; [reflexivity|]. split; vm_compute; reflexivity. }
  apply Forall_cons; split; [unfold encodable; lia|].
  apply Forall_cons; split.
  { split; [reflexivity|]. split; vm_compute; reflexivity. }
  apply Forall_cons; split; [unfold encodable; lia|].
  apply Forall_nil_2.
Defined.

(** ** Texts and lists *)

Lemma str_split_no_comma (t : str) :
  comma ∉ t -> str_split comma t = [t].
Proof.
  induction t as [|c t IH]; [done|]. intros Hc.
  apply not_elem_of_cons in Hc as [Hne Ht]. cbn [str_split].
  destruct (c =? comma)%N eqn:E; [apply N.eqb_eq in E; congruence|].
  by rewrite IH.
Qed.

Lemma str_split_app_comma (t r : str) :
  comma ∉ t ->
  str_split comma (t ++ [comma] ++ r) = t :: str_split comma r.
Proof.
  induction t as [|c t IH]; intros Hc.
  - cbn [app str_split]. by rewrite N.eqb_refl.
  - apply not_elem_of_cons in Hc as [Hne Ht].
    rewrite <- app_comm_cons. cbn [str_split].
    destruct (c =? comma)%N eqn:E; [apply N.eqb_eq in E; congruence|].
    by rewrite IH.
Qed.

(** Joining texts that hold no comma and splitting the result gives the
    texts back, unless there are none. *)
Lemma str_split_join (strs : list str) :
  strs <> [] -> Forall (fun t => comma ∉ t) strs ->
  exists j : str,
    str_join [comma] (map VStr strs) = Ok j /\ str_split comma j = strs.
Proof.
  intros Hne Hf. induction Hf as [|t strs Ht Hf IH]; [done|].
  destruct strs as [|t2 strs].
  - exists t. split; [done|]. by apply str_split_no_comma.
  - destruct IH as (j & Hj & Hs); [done|].
    exists (t ++ [comma] ++ j). split.
    + cbn [map str_join] in *. by rewrite Hj.
    + by rewrite str_split_app_comma, Hs.
Qed.

Lemma str_split_length (t : str) :
  length (str_split comma t) = S (length (filter (fun c => c = comma) t)).
Proof.
  induction t as [|c t IH]; [done|]. cbn [str_split].
  destruct (c =? comma)%N eqn:E.
  - apply N.eqb_eq in E. rewrite filter_cons_True by done.
    simpl. by rewrite IH.
  - apply N.eqb_neq in E. rewrite filter_cons_False by done.
    destruct (str_split comma t); simpl in *; lia.
Qed.

Section Texts.

Variable util_asbytes : value -> result bytes.
Variable u : bytes -> result str.

(** X14.  A non-empty list of texts none of which holds a comma makes the
    round trip through [add_list] and [get_list] unchanged, provided the
    helpers carry the joined text (its bytes fit the length field and
    decode back to it). *)
Theorem comma_free_list_round_trip (h : heap) (self peer : ref)
    (strs : list str) (j : str) (b : bytes) :
  strs <> [] -> Forall (fun t => comma ∉ t) strs ->
  str_join [comma] (map VStr strs) = Ok j ->
  util_asbytes (VStr j) = Ok b -> len b < 2 ^ 32 -> u b = Ok j ->
  fst (round_trip self peer (fun m => add_list util_asbytes m (map VStr strs))
         (get_list u) h)
  = Ok (be_encode 4 (len b) ++ b, strs).
Proof.
  intros Hne Hf Hj Ha Hl Hu.
  destruct (str_split_join strs Hne Hf) as (j' & Hj' & Hs).
  rewrite Hj in Hj'. injection Hj' as <-.
  rewrite (list_round_trip util_asbytes u h self peer (map VStr strs) j j b
             Hj Ha Hl Hu).
  by rewrite Hs.
Qed.

(** X15.  [get_list] never returns an empty list: what it returns has one
    element more than the decoded text has commas. *)
Theorem get_list_never_empty (h h' : heap) (self : ref) (l : list str) :
  get_list u self h = (Ok l, h') ->
  l <> []
  /\ exists t : str,
       get_text u self h = (Ok t, h')
       /\ length l = S (length (filter (fun c => c = comma) t)).
Proof.
  unfold get_list, bind. destruct (get_text u self h) as [[t|e] h1]; [|done].
  unfold ret. intros [= <- <-].
  pose proof (str_split_length t) as Hl.
  split; [by destruct (str_split comma t)|]. by exists t.
Qed.

(** X16.  [get_text] consumes the string before it decodes it: on a
    well-formed string the result is what the helper [u] makes of the
    payload, a text or the helper's exception, and in both cases the
    cursor is past the string. *)
Theorem get_text_consumes (h : heap) (self : ref) (s : BytesIO)
    (pre d rest : bytes) :
  h !! self = Some s -> buf s = pre ++ be_encode 4 (len d) ++ d ++ rest ->
  pos s = length pre -> len d < 2 ^ 32 ->
  get_text u self h = (u d, <[self := advance (4 + length d) s]> h).
Proof.
  intros Hs Hb Hp Hd. unfold get_text. rewrite get_string_binary.
  rewrite (bind_run _ _ _ _ _
             (get_binary_exact h self s pre d rest Hs Hb Hp Hd)).
  apply lift_run.
Qed.

End Texts.

Lemma comma_free_list_round_trip_witness :
  fst (round_trip 1 2
         (fun m => add_list Util.asbytes m (map VStr [text "ssh-rsa"; text "x"]))
         (get_list Util.u) ∅)
  = Ok (be_encode 4 (len [x73; x73; x68; x2d; x72; x73; x61; x2c; x78])
        ++ [x73; x73; x68; x2d; x72; x73; x61; x2c; x78],
        [text "ssh-rsa"; text "x"]).
Proof.
  apply (comma_free_list_round_trip Util.asbytes Util.u ∅ 1%positive
           2%positive [text "ssh-rsa"; text "x"] (text "ssh-rsa,x")).
  - discriminate.
  - apply Forall_cons; split.
    { intros Hin. apply list_elem_of_In in Hin. vm_compute in Hin.
      intuition discriminate. }
    apply Forall_cons; split; [|apply Forall_nil_2].
    intros Hin. apply list_elem_of_In in Hin. vm_compute in Hin.
    intuition discriminate.
  - reflexivity.
  - reflexivity.
  - vm_compute. reflexivity.
  - reflexivity.
Defined.

Lemma get_list_never_empty_witness :
  [text "a"; text "b"] <> []
  /\ exists t : str,
       get_text Util.u 1
         (<[1%positive := mkBytesIO [x00; x00; x00; x03; x61; x2c; x62] 0]>
            (∅ : heap))
       = (Ok t,
          <[1%positive := mkBytesIO [x00; x00; x00; x03; x61; x2c; x62] 7]>
            (∅ : heap))
       /\ length [text "a"; text "b"]
          = S (length (filter (fun c => c = comma) t)).
Proof.
  apply (get_list_never_empty Util.u
           (<[1%positive := mkBytesIO [x00; x00; x00; x03; x61; x2c; x62] 0]>
              (∅ : heap))
           (<[1%positive := mkBytesIO [x00; x00; x00; x03; x61; x2c; x62] 7]>
              (∅ : heap))
           1%positive [text "a"; text "b"]).
  vm_compute. reflexivity.
Defined.

Lemma get_text_consumes_witness :
  get_text Util.u 1
    (<[1%positive := mkBytesIO [x00; x00; x00; x01; xff; x2a] 0]> (∅ : heap))
  = (Util.u [xff],
     <[1%positive := advance (4 + length [xff])
                       (mkBytesIO [x00; x00; x00; x01; xff; x2a] 0)]>
       (<[1%positive := mkBytesIO [x00; x00; x00; x01; xff; x2a] 0]>
          (∅ : heap))).
Proof.
  apply (get_text_consumes Util.u
           (<[1%positive := mkBytesIO [x00; x00; x00; x01; xff; x2a] 0]>
              (∅ : heap))
           1%positive (mkBytesIO [x00; x00; x00; x01; xff; x2a] 0)
           [] [xff] [x2a]).
  - reflexivity.
  - reflexivity.
  - reflexivity.
  - vm_compute. reflexivity.
Defined.

(** ** Getters only move the cursor *)

Lemma reader_ret {A : Type} (a : A) (self : ref) : reader (ret a) self.
Proof.
  intros s. exists (Ok a), (pos s). intros h Hs. unfold ret.
  f_equal. symmetry. apply insert_id. rewrite Hs. by destruct s.
Qed.

Lemma reader_lift {A : Type} (r : result A) (self : ref) :
  reader (lift r) self.
Proof.
  intros s. exists r, (pos s). intros h Hs. rewrite lift_run.
  f_equal. symmetry. apply insert_id. rewrite Hs. by destruct s.
Qed.

Lemma reader_bind {A B : Type} (c : M A) (k : A -> M B) (self : ref) :
  reader c self -> (forall a, reader (k a) self) -> reader (bind c k) self.
Proof.
  intros Hc Hk s. destruct (Hc s) as (r & p & Hr).
  destruct r as [a|e].
  - destruct (Hk a {| buf := buf s; pos := p |}) as (r' & p' & Hr').
    exists r', p'. intros h Hs.
    rewrite (bind_run _ _ _ _ _ (Hr h Hs)).
    rewrite (Hr' _ (lookup_insert_eq _ _ _)). by rewrite insert_insert_eq.
  - exists (Raise e), p. intros h Hs.
    by rewrite (bind_raise _ _ _ _ _ (Hr h Hs)).
Qed.

Lemma reader_if {A : Type} (b : bool) (c1 c2 : M A) (self : ref) :
  reader c1 self -> reader c2 self -> reader (if b then c1 else c2) self.
Proof. by destruct b. Qed.

Lemma reader_packet_read (self : ref) (size : option Z) :
  reader (packet_read self size) self.
Proof.
  intros s. destruct (size_overflows size s) eqn:Hf.
  - exists (Raise OverflowError), (pos s). intros h Hs.
    rewrite (packet_read_overflow h self s size Hs Hf).
    f_equal. symmetry. apply insert_id. rewrite Hs. by destruct s.
  - eexists _, _. intros h Hs.
    rewrite (packet_read_run h self s size Hs Hf). reflexivity.
Qed.

Lemma reader_packet_tell (self : ref) : reader (packet_tell self) self.
Proof.
  intros s. exists (Ok (Z.of_nat (pos s))), (pos s). intros h Hs.
  rewrite (packet_tell_run h self s Hs).
  f_equal. symmetry. apply insert_id. rewrite Hs. by destruct s.
Qed.

Lemma reader_packet_seek (self : ref) (p : Z) :
  reader (packet_seek self p) self.
Proof.
  intros s. unfold packet_seek.
  exists (fst (io_seek p s)), (pos (snd (io_seek p s))). intros h Hs.
  rewrite (packet_run _ h self s Hs). do 2 f_equal.
  unfold io_seek. destruct (p <? 0); [by destruct s | done].
Qed.

Lemma reader_get_bytes (self : ref) (n : Z) : reader (get_bytes self n) self.
Proof.
  apply reader_bind; [apply reader_packet_read|].
  intros b. apply reader_if; apply reader_ret.
Qed.

Lemma reader_get_int (self : ref) : reader (get_int self) self.
Proof.
  apply reader_bind; [apply reader_get_bytes|]. intros; apply reader_lift.
Qed.

Lemma reader_get_binary (self : ref) : reader (get_binary self) self.
Proof.
  apply reader_bind; [apply reader_get_int|]. intros; apply reader_get_bytes.
Qed.

Section Readers.

Variable inflate_long : bytes -> Z.
Variable u : bytes -> result str.

Lemma reader_get_field (self : ref) (k : kind) :
  reader (get_field inflate_long self k) self.
Proof.
  destruct k; simpl get_field;
    (apply reader_bind; [|intros; apply reader_ret]).
  - apply reader_bind; [apply reader_get_bytes|]. intros; apply reader_ret.
  - apply reader_get_int.
  - apply reader_bind; [apply reader_get_bytes|]. intros; apply reader_lift.
  - apply reader_bind; [apply reader_get_bytes|]. intros b.
    apply reader_if.
    + apply reader_bind; [apply reader_get_binary|].
      intros; apply reader_ret.
    + apply reader_bind; [apply reader_get_bytes|].
      intros; apply reader_lift.
  - apply reader_bind; [apply reader_get_binary|]. intros; apply reader_ret.
  - apply reader_get_binary.
Qed.

Lemma reader_get_fields (self : ref) (ks : list kind) :
  reader (get_fields inflate_long self ks) self.
Proof.
  induction ks as [|k ks IH]; simpl get_fields; [apply reader_ret|].
  apply reader_bind; [apply reader_get_field|]. intros f.
  apply reader_bind; [done|]. intros; apply reader_ret.
Qed.

(** X17.  No getter and no introspection method changes the content of
    the message or any other object: each of them moves at most the
    cursor of [self], and its result and the new cursor depend on the
    content and the cursor of [self] alone. *)
Theorem getters_only_move_the_cursor (self : ref) :
  reader (asbytes self) self
  /\ reader (rewind self) self
  /\ reader (get_remainder self) self
  /\ reader (get_so_far self) self
  /\ (forall n, reader (get_bytes self n) self)
  /\ reader (get_byte self) self
  /\ reader (get_boolean self) self
  /\ reader (get_adaptive_int inflate_long self) self
  /\ reader (get_int self) self
  /\ reader (get_int64 self) self
  /\ reader (get_mpint inflate_long self) self
  /\ reader (get_string self) self
  /\ reader (get_text u self) self
  /\ reader (get_binary self) self
  /\ reader (get_list u self) self.
Proof.
  repeat split.
  - intros s. exists (Ok (buf s)), (pos s). intros h Hs.
    unfold asbytes. rewrite (packet_getvalue_run h self s Hs).
    f_equal. symmetry. apply insert_id. rewrite Hs. by destruct s.
  - apply reader_bind; [apply reader_packet_seek|]. intros; apply reader_ret.
  - apply reader_bind; [apply reader_packet_tell|]. intros p.
    apply reader_bind; [apply reader_packet_read|]. intros r.
    apply reader_bind; [apply reader_packet_seek|]. intros; apply reader_ret.
  - apply reader_bind; [apply reader_packet_tell|]. intros p.
    apply reader_bind; [|intros; apply reader_packet_read].
    apply reader_bind; [apply reader_packet_seek|]. intros; apply reader_ret.
  - apply reader_get_bytes.
  - apply reader_get_bytes.
  - apply reader_bind; [apply reader_get_bytes|]. intros; apply reader_ret.
  - apply reader_bind; [apply reader_get_bytes|]. intros b.
    apply reader_if.
    + apply reader_bind; [apply reader_get_binary|].
      intros; apply reader_ret.
    + apply reader_bind; [apply reader_get_bytes|].
      intros; apply reader_lift.
  - apply reader_get_int.
  - apply reader_bind; [apply reader_get_bytes|]. intros; apply reader_lift.
  - apply reader_bind; [apply reader_get_binary|]. intros; apply reader_ret.
  - apply reader_get_binary.
  - apply reader_bind; [apply reader_get_binary|]. intros; apply reader_lift.
  - apply reader_get_binary.
  - apply reader_bind; [|intros; apply reader_ret].
    apply reader_bind; [apply reader_get_binary|]. intros; apply reader_lift.
Qed.

(** X18.  Parsing again after [rewind] gives the same values: when the
    getters of some kinds, run from the start of a message, return a list
    of fields, then [rewind] followed by the same getters returns the same
    list and leaves the same store. *)
Theorem rewind_parses_again (h h1 : heap) (self : ref) (s : BytesIO)
    (ks : list kind) (fs : list field) :
  h !! self = Some s -> pos s = 0%nat ->
  get_fields inflate_long self ks h = (Ok fs, h1) ->
  (rewind self ;;; get_fields inflate_long self ks) h1 = (Ok fs, h1).
Proof.
  intros Hs Hp Hg.
  destruct (reader_get_fields self ks s) as (r & k & Hr).
  rewrite (Hr h Hs) in Hg. injection Hg as -> <-.
  erewrite bind_run by (apply rewind_run, lookup_insert_eq).
  rewrite insert_insert_eq. cbn [buf].
  assert ({| buf := buf s; pos := 0 |} = s) as ->
    by (clear Hr; destruct s; simpl in *; by subst).
  rewrite (Hr _ (lookup_insert_eq _ _ _)). by rewrite !insert_insert_eq.
Qed.

End Readers.

Lemma rewind_parses_again_witness :
  (rewind 1 ;;; get_fields Util.inflate_long 1 [KInt; KBoolean])
    (<[1%positive := mkBytesIO [x00; x00; x01; xf4; x01] 5]> (∅ : heap))
  = (Ok [FInt 500; FBoolean true],
     <[1%positive := mkBytesIO [x00; x00; x01; xf4; x01] 5]> (∅ : heap)).
Proof.
  apply (rewind_parses_again Util.inflate_long
           (<[1%positive := mkBytesIO [x00; x00; x01; xf4; x01] 0]> (∅ : heap))
           (<[1%positive := mkBytesIO [x00; x00; x01; xf4; x01] 5]> (∅ : heap))
           1%positive (mkBytesIO [x00; x00; x01; xf4; x01] 0)
           [KInt; KBoolean] [FInt 500; FBoolean true]).
  - reflexivity.
  - reflexivity.
  - vm_compute. reflexivity.
Defined.

Lemma add_calls_chain_witness :
  (m <- call Util.deflate_long Util.asbytes 1 (AddInt 500) ;;
   call Util.deflate_long Util.asbytes m (AddBoolean true))
    (<[1%positive := BytesIO_new None]> (∅ : heap))
  = (Ok 1%positive,
     <[1%positive := overwrite ([x00; x00; x01; xf4] ++ [x01])
                       (BytesIO_new None)]>
       (<[1%positive := BytesIO_new None]> (∅ : heap))).
Proof.
  apply (add_calls_chain Util.deflate_long Util.asbytes
           (<[1%positive := BytesIO_new None]> (∅ : heap)) 1%positive
           (BytesIO_new None) (AddInt 500) (AddBoolean true)).
  - reflexivity.
  - apply cursor_in_range_new.
  - reflexivity.
  - reflexivity.
Defined.
